(** * Parallel Game of Life: the grid functions of gol.c and the row
    partition and turn loop of main.c, embedded and verified.

    The C program keeps two [int] arrays, [world] (the live grid) and
    [world_copy] (the snapshot of the previous generation).  Both are
    modelled as blocks of a small heap, so that the pointer arguments of
    [update_cell] and [update_world] may alias, and every store is
    recorded in a write log.  Machine integers are 32 bits wide; the
    wrap-around of [unsigned] arithmetic and the conversions between
    [int] and [unsigned] are written out.  An access outside an array is
    undefined behaviour: the function that does it returns [None].
    Overflow of [int] arithmetic, undefined as well, is not modelled: the
    [int] sums of the program (loop counters, [cur = end + 1]) are sums on
    [Z], which the hypotheses of the theorems keep in range. *)

From Stdlib Require Import ZArith Lia Ascii String.
From stdpp Require Import base numbers option list gmap strings.

Local Open Scope Z_scope.

(** ** Machine integers *)

Module Int32.

Definition modulus : Z := 2 ^ 32.
Definition max_signed : Z := 2 ^ 31 - 1.
Definition min_signed : Z := - 2 ^ 31.

(** Conversion to [unsigned]: reduction modulo 2^32. *)
Definition to_unsigned (z : Z) : Z := z mod modulus.

(** Conversion to [int]: the value modulo 2^32 read as two's complement. *)
Definition to_int (z : Z) : Z :=
  let u := z mod modulus in
  if u <? 2 ^ 31 then u else u - modulus.

(** The values of type [int]. *)
Definition is_int (z : Z) : Prop := min_signed <= z <= max_signed.

End Int32.

Import Int32.

(** ** gol.c: toroidal indexing *)

(** [unsigned int translate_to_1D(int col, int row, unsigned num_cols,
    unsigned num_rows)].  [col += num_cols] is computed in [unsigned] and
    converted back to [int]; the comparison [col >= (int)num_cols] is
    signed; the returned expression [row*num_cols + col] is unsigned. *)
Definition translate_to_1D (col row num_cols num_rows : Z) : Z :=
  let col :=
    if col <? 0 then to_int (to_unsigned (to_unsigned col + num_cols))
    else if col >=? to_int num_cols
         then to_int (to_unsigned (to_unsigned col - num_cols))
         else col in
  let row :=
    if row <? 0 then to_int (to_unsigned (to_unsigned row + num_rows))
    else if row >=? to_int num_rows
         then to_int (to_unsigned (to_unsigned row - num_rows))
         else row in
  to_unsigned (to_unsigned (to_unsigned row * num_cols) + to_unsigned col).

(** ** Memory: int arrays addressed by block, with a log of the stores *)

Abbreviation ptr := positive.

Record machine := Machine {
  heap : gmap positive (list Z);
  writes : list (positive * Z)
}.

(** [p[i]] as an rvalue; reading outside the block is undefined. *)
Definition load (m : machine) (p : ptr) (i : Z) : option Z :=
  l ← heap m !! p;
  if bool_decide (0 <= i) then l !! Z.to_nat i else None.

(** [p[i] = v]; writing outside the block is undefined. *)
Definition store (m : machine) (p : ptr) (i v : Z) : option machine :=
  l ← heap m !! p;
  if bool_decide (0 <= i < Z.of_nat (length l))
  then Some (Machine (<[p := <[Z.to_nat i := v]> l]> (heap m))
                     (writes m ++ [(p, i)]))
  else None.

(** A [for] loop over the successive values of its counter; the body may
    fail (undefined behaviour), which aborts the loop. *)
Fixpoint for_each {A S : Type} (l : list A) (body : A → S → option S)
    (s : S) : option S :=
  match l with
  | [] => Some s
  | a :: l => s' ← body a s; for_each l body s'
  end.

(** ** gol.c: neighbour count, cell update, band update *)

(** The two values that the program stores in a cell. *)
Definition ALIVE : Z := 1.
Definition DEAD : Z := 0.

(** Body of the inner loop of [count_live_neighbors]. *)
Definition count_cell (m : machine) (world : ptr) (x y num_cols num_rows : Z)
    (col row : Z) (sum : Z) : option Z :=
  if (col =? x) && (row =? y) then Some sum
  else
    v ← load m world (translate_to_1D col row num_cols num_rows);
    Some (if v =? 1 then to_unsigned (sum + 1) else sum).

(** [unsigned int count_live_neighbors(int *world, int x, int y,
    unsigned num_cols, unsigned num_rows)]: [col] runs over x-1..x+1 and,
    inside, [row] over y-1..y+1. *)
Definition count_live_neighbors (m : machine) (world : ptr)
    (x y num_cols num_rows : Z) : option Z :=
  for_each (seqZ (x - 1) 3)
    (λ col sum,
       for_each (seqZ (y - 1) 3)
         (λ row sum, count_cell m world x y num_cols num_rows col row sum)
         sum)
    0.

(** [void update_cell(int *curr_world, int *next_world, int x, int y,
    int num_cols, int num_rows)].  The [int] dimensions are converted to
    [unsigned] at the two calls. *)
Definition update_cell (m : machine) (curr_world next_world : ptr)
    (x y num_cols num_rows : Z) : option machine :=
  let index := translate_to_1D x y (to_unsigned num_cols) (to_unsigned num_rows) in
  n ← count_live_neighbors m curr_world x y
         (to_unsigned num_cols) (to_unsigned num_rows);
  c ← load m curr_world index;
  if (c =? 1) && ((n <? 2) || (n >? 3)) then store m next_world index 0
  else if n =? 3 then store m next_world index 1
  else Some m.

(** [void update_world(int *world, int *world_copy, int num_cols,
    int num_rows, int start_row, int end_row)]: rows start_row..end_row
    inclusive, columns 0..num_cols-1. *)
Definition update_world (m : machine) (world world_copy : ptr)
    (num_cols num_rows start_row end_row : Z) : option machine :=
  for_each (seqZ start_row (end_row - start_row + 1))
    (λ y m,
       for_each (seqZ 0 num_cols)
         (λ x m, update_cell m world_copy world x y num_cols num_rows) m)
    m.

(** ** gol.c: printing the world *)

(** The calls of the curses library that [print_world] makes, in order:
    the screen itself is outside the program. *)
Inductive curses_call :=
| Clear
| Mvaddch (y x : Z) (ch : ascii)
| Mvaddstr (y x : Z) (s : string)
| Refresh.

(** The decimal digits of [n >= 0], most significant first, put in front
    of [acc]; [fuel] bounds their number. *)
Fixpoint digits_of (fuel : nat) (n : Z) (acc : string) : string :=
  match fuel with
  | O => acc
  | S fuel =>
      let acc := String (ascii_of_N (48 + Z.to_N (n mod 10))) acc in
      if n <? 10 then acc else digits_of fuel (n / 10) acc
  end.

(** What the conversion [%d] of [sprintf] writes for an [int]: a minus
    sign for a negative number, and the digits; ten digits are enough for
    32 bits. *)
Definition decimal (n : Z) : string :=
  if n <? 0 then String "-" (digits_of 10 (- n) EmptyString)
  else digits_of 10 n EmptyString.

(** [sprintf(turn_str, "Time Step: %d", turn)] into [char turn_str[20]]:
    the string, or [None] when the string and its final zero byte do not
    fit into the 20 bytes, which is a write outside the array. *)
Definition sprintf_turn (turn : Z) : option string :=
  let s := ("Time Step: " ++ decimal turn)%string in
  if bool_decide (Z.of_nat (String.length s) + 1 <= 20) then Some s else None.

(** [void print_world(int *world, int num_cols, int num_rows, int turn)]:
    the calls made, or [None] when the behaviour is undefined. *)
Definition print_world (m : machine) (world : ptr)
    (num_cols num_rows turn : Z) : option (list curses_call) :=
  out ← for_each (seqZ 0 num_rows)
    (λ row out,
       for_each (seqZ 0 num_cols)
         (λ col out,
            let index :=
              translate_to_1D col row (to_unsigned num_cols)
                (to_unsigned num_rows) in
            v ← load m world index;
            Some (out ++ [Mvaddch row col
                            (if v =? 1 then "@"%char else "."%char)]))
         out)
    [Clear];
  turn_str ← sprintf_turn turn;
  Some (out ++ [Mvaddstr (num_rows + 1) 0 turn_str; Refresh]).

(** ** gol.c: reading the configuration *)

(** The text of the configuration file as the [fscanf] conversions see
    it: a sequence of white-space separated items, each a decimal numeral
    or something that no integer conversion accepts. *)
Inductive token := Num (z : Z) | Junk.

(** One [%d] or [%u] conversion: the value read and the rest of the
    input, or [None] when the conversion fails (no numeral, or end of
    file). *)
Definition scan_number (toks : list token) : option (Z * list token) :=
  match toks with
  | Num z :: rest => Some (z, rest)
  | _ => None
  end.

(** What a call of [initialize_world] does: its behaviour is undefined
    (a store outside the array, or an overflowing size), it returns
    [NULL], or it returns the array, with the dimensions it stored
    through [num_cols] and [num_rows]. *)
Inductive init_result :=
| InitUndefined
| InitNull
| InitWorld (num_cols num_rows : Z) (world : list Z).

(** The loop [for (unsigned i = 0; i < num_pairs; i++)]; [world] is
    [None] when [calloc] returned [NULL]. *)
Fixpoint read_pairs (num_pairs : nat) (toks : list token)
    (num_cols num_rows : Z) (world : option (list Z)) : init_result :=
  match num_pairs with
  | O => match world with
         | Some w => InitWorld num_cols num_rows w
         | None => InitNull
         end
  | S n =>
      match scan_number toks with
      | None => InitNull
      | Some (col, toks) =>
          match scan_number toks with
          | None => InitNull
          | Some (row, toks) =>
              let index :=
                translate_to_1D (to_int (to_unsigned col)) (to_int (to_unsigned row))
                  (to_unsigned num_cols) (to_unsigned num_rows) in
              match world with
              | None => InitUndefined
              | Some w =>
                  if bool_decide (index < Z.of_nat (length w))
                  then read_pairs n toks num_cols num_rows
                         (Some (<[Z.to_nat index := 1]> w))
                  else InitUndefined
              end
          end
      end
  end.

(** [int *initialize_world(char *config_filename, int *num_cols,
    int *num_rows)].  The argument is the content of the file, [None]
    when [fopen] fails.  [calloc] is taken to succeed for every size that
    is not negative; a negative [int] size converts to a huge [size_t],
    for which it returns [NULL]. *)
Definition initialize_world (config : option (list token)) : init_result :=
  match config with
  | None => InitNull
  | Some toks =>
      match scan_number toks with
      | None => InitNull
      | Some (rows, toks) =>
          let num_rows := to_int rows in
          match scan_number toks with
          | None => InitNull
          | Some (cols, toks) =>
              let num_cols := to_int cols in
              match scan_number toks with
              | None => InitNull
              | Some (pairs, toks) =>
                  let num_pairs := to_unsigned pairs in
                  let size := num_cols * num_rows in
                  if bool_decide (is_int size) then
                    read_pairs (Z.to_nat num_pairs) toks num_cols num_rows
                      (if size <? 0 then None
                       else Some (replicate (Z.to_nat size) 0))
                  else InitUndefined
              end
          end
      end
  end.

(** ** main.c: the worker record, the turn loop and the row partition *)

(** [struct ThreadData], without the barrier and the delay. *)
Record ThreadData := {
  id : Z;
  world : ptr;
  width : Z;
  height : Z;
  num_turns : Z;
  start_row : Z;
  end_row : Z;
  world_copy : ptr
}.

(** [int total_rows = (myargs->end_row) - (myargs->start_row) + 1], the
    number of rows that [thread_function] prints when the thread starts. *)
Definition total_rows (td : ThreadData) : Z := end_row td - start_row td + 1.

(** [thread_function] between the two barrier waits of a turn: the
    thread with id 0 copies the world, cell by cell.  The frame that it
    then draws with [print_world], which reads the world and whose line
    for the turn fits while the turn number has at most eight digits
    (see [sprintf_turn]), and the sleep are not kept. *)
Definition snapshot_phase (td : ThreadData) (m : machine) : option machine :=
  if id td =? 0 then
    for_each (seqZ 0 (width td * height td))
      (λ i m, v ← load m (world td) i; store m (world_copy td) i v) m
  else Some m.

(** [thread_function] after the second barrier wait of a turn. *)
Definition compute_phase (td : ThreadData) (m : machine) : option machine :=
  update_world m (world td) (world_copy td) (width td) (height td)
    (start_row td) (end_row td).

(** One turn of all the threads.  The barriers split it in two phases;
    inside the second the threads are run in the order given. *)
Definition turn (tds : list ThreadData) (m : machine) : option machine :=
  m ← for_each tds snapshot_phase m;
  for_each tds compute_phase m.

(** The loop of [run_threads] that hands out the rows: the state is
    [remainder] and [cur], the result the [(start, end)] of each thread
    in turn.  [rows_per_thread] is [unsigned], so both sums are computed
    in [unsigned] and converted to [int]. *)
Fixpoint assign_rows (num_threads : nat) (remainder cur rows_per_thread : Z)
    : list (Z * Z) :=
  match num_threads with
  | O => []
  | S n =>
      if 0 <? remainder then
        let start := cur in
        let end_ := to_int (to_unsigned (to_unsigned cur + rows_per_thread)) in
        (start, end_) :: assign_rows n (remainder - 1) (end_ + 1) rows_per_thread
      else
        let start := cur in
        let end_ :=
          to_int (to_unsigned (to_unsigned (to_unsigned cur + rows_per_thread) - 1)) in
        (start, end_) :: assign_rows n remainder (end_ + 1) rows_per_thread
  end.

(** The bands of [run_threads(num_threads, _, _, _, height, _)]. *)
Definition row_bands (num_threads height : Z) : list (Z * Z) :=
  assign_rows (Z.to_nat num_threads) (Z.rem height num_threads) 0
    (to_unsigned (Z.quot height num_threads)).

(** [malloc]: a new block whose content is indeterminate; [junk] stands
    for it. *)
Definition malloc (m : machine) (size : Z) (junk : list Z) : machine * ptr :=
  let p := fresh (dom (heap m)) in
  (Machine (<[p := resize (Z.to_nat size) 0 junk]> (heap m)) (writes m), p).

(** [free]: the block is gone. *)
Definition free (m : machine) (p : ptr) : machine :=
  Machine (delete p (heap m)) (writes m).

(** The array [td] of [run_threads], filled for the given bands. *)
Definition thread_data (num_turns : Z) (world : ptr) (width height : Z)
    (world_copy : ptr) (bands : list (Z * Z)) : list ThreadData :=
  imap (λ i band,
          {| id := Z.of_nat i; world := world; width := width;
             height := height; num_turns := num_turns;
             start_row := band.1; end_row := band.2;
             world_copy := world_copy |}) bands.

(** [void run_threads(int num_threads, int num_turns, int *world,
    int width, int height, int delay)].  A division by zero is
    undefined. *)
Definition run_threads (m : machine) (num_threads num_turns : Z) (world : ptr)
    (width height : Z) (junk : list Z) : option machine :=
  if num_threads =? 0 then None
  else
    let '(m, world_copy) := malloc m (width * height) junk in
    let td := thread_data num_turns world width height world_copy
                (row_bands num_threads height) in
    m ← for_each (seqZ 0 num_turns) (λ _ m, turn td m) m;
    Some (free m world_copy).

(** ** main.c: the command line *)

(** The local variables of [main] that the options set. *)
Record options := {
  opt_config_filename : option string;
  opt_delay : Z;
  opt_num_turns : Z;
  opt_p : Z;
  opt_num_threads : Z
}.

(** Their initial values: no file name, delay 100, 20 turns, p = 1 and
    two threads. *)
Definition default_options : options :=
  {| opt_config_filename := None; opt_delay := 100; opt_num_turns := 20;
     opt_p := 1; opt_num_threads := 2 |}.

(** The white space that a conversion skips: space, and the characters
    9 to 13 (tab, newline, vertical tab, form feed, carriage return). *)
Definition is_space (c : ascii) : bool :=
  let n := N_of_ascii c in
  ((n =? 32) || ((9 <=? n) && (n <=? 13)))%N.

(** The value of a decimal digit. *)
Definition digit_of (c : ascii) : option Z :=
  let n := Z.of_N (N_of_ascii c) in
  if (48 <=? n) && (n <=? 57) then Some (n - 48) else None.

Fixpoint skip_spaces (s : string) : string :=
  match s with
  | String c s' => if is_space c then skip_spaces s' else s
  | EmptyString => s
  end.

(** The longest run of decimal digits at the head of [s], as a number;
    [acc] is [None] until a digit has been seen. *)
Fixpoint scan_digits (s : string) (acc : option Z) : option Z :=
  match s with
  | String c s' =>
      match digit_of c with
      | Some d => scan_digits s' (Some (10 * default 0 acc + d))
      | None => acc
      end
  | EmptyString => acc
  end.

(** [sscanf(optarg, "%d", &v)]: [Some] of the value stored when the
    conversion succeeds (the call returns 1), [None] otherwise.  White
    space is skipped, a sign is accepted, and the digits that follow are
    read; a numeral outside [int] is stored modulo 2^32. *)
Definition sscanf_d (optarg : string) : option Z :=
  match skip_spaces optarg with
  | String "-" s => (λ v, to_int (- v)) <$> scan_digits s None
  | String "+" s => to_int <$> scan_digits s None
  | s => to_int <$> scan_digits s None
  end.

(** The body of the [switch] for one option letter that [getopt]
    returned with its argument; [None] is the call of [usage], which
    exits. *)
Definition handle_option (o : options) (ch : ascii) (optarg : string)
    : option options :=
  if Ascii.eqb ch "c" then
    Some {| opt_config_filename := Some optarg; opt_delay := opt_delay o;
            opt_num_turns := opt_num_turns o; opt_p := opt_p o;
            opt_num_threads := opt_num_threads o |}
  else if Ascii.eqb ch "t" then
    v ← sscanf_d optarg;
    Some {| opt_config_filename := opt_config_filename o;
            opt_delay := opt_delay o; opt_num_turns := v; opt_p := opt_p o;
            opt_num_threads := opt_num_threads o |}
  else if Ascii.eqb ch "d" then
    v ← sscanf_d optarg;
    Some {| opt_config_filename := opt_config_filename o; opt_delay := v;
            opt_num_turns := opt_num_turns o; opt_p := opt_p o;
            opt_num_threads := opt_num_threads o |}
  else if Ascii.eqb ch "p" then
    v ← sscanf_d optarg;
    Some {| opt_config_filename := opt_config_filename o;
            opt_delay := opt_delay o; opt_num_turns := opt_num_turns o;
            opt_p := opt_p o; opt_num_threads := v |}
  else None.

(** The [while] loop over the options that [getopt] yields, in order. *)
Definition parse_options (opts : list (ascii * string)) : option options :=
  for_each opts (λ '(ch, optarg) o, handle_option o ch optarg) default_options.

(** How [main] ends: in [usage], with the message that the world could
    not be initialized, in undefined behaviour, or with [return 0]: then
    [m] is the machine that it leaves, after [free(world)], and [frame]
    what its last call of [print_world] drew. *)
Inductive main_result :=
| MainUsage
| MainInitFailed
| MainUndefined
| MainDone (m : machine) (frame : list curses_call).

(** The block that holds the world in [main]. *)
Definition main_world : ptr := 1%positive.

(** The call [run_threads(num_threads, num_turns, world, width, height,
    delay)] of [main], for the parsed options and the world read. *)
Definition main_run (o : options) (num_cols num_rows : Z) (w : list Z)
    (junk : list Z) : option machine :=
  run_threads (Machine {[main_world := w]} []) (opt_num_threads o)
    (opt_num_turns o) main_world num_cols num_rows junk.

(** [int main(int argc, char *argv[])]: [files] maps a file name to its
    content.  After the run come [print_world(world, width, height,
    num_turns)] and, at the end, [free(world)].  The summary of the
    options, the calls that open and close the screen, the prompt on its
    last line and the wait for a key are not kept. *)
Definition main (files : string → option (list token))
    (opts : list (ascii * string)) (junk : list Z) : main_result :=
  match parse_options opts with
  | None => MainUsage
  | Some o =>
      match opt_config_filename o with
      | None => MainUsage
      | Some config_filename =>
          match initialize_world (files config_filename) with
          | InitUndefined => MainUndefined
          | InitNull => MainInitFailed
          | InitWorld width height w =>
              match main_run o width height w junk with
              | Some m =>
                  match print_world m main_world width height
                          (opt_num_turns o) with
                  | Some frame => MainDone (free m main_world) frame
                  | None => MainUndefined
                  end
              | None => MainUndefined
              end
          end
      end
  end.

(** ** Definitions of the specification *)

(** A cell is alive when it holds 1; the program tests [== 1]. *)
Definition alive (v : Z) : bool := v =? ALIVE.

(** The B3/S23 rule on the previous state of a cell and its count of
    live neighbours. *)
Definition life_rule (was_alive : bool) (n : Z) : bool :=
  if was_alive then
    if (n <? 2) || (n >? 3) then false else true
  else
    if n =? 3 then true else false.

(** A coordinate shifted once into range. *)
Definition wrap_once (c n : Z) : Z :=
  if c <? 0 then c + n else if c >=? n then c - n else c.

(** Row-major index after one shift of each coordinate. *)
Definition index (col row W H : Z) : Z :=
  wrap_once row H * W + wrap_once col W.

(** The eight offsets of the Moore neighbourhood. *)
Definition moore_offsets : list (Z * Z) :=
  [(-1, -1); (-1, 0); (-1, 1); (0, -1); (0, 1); (1, -1); (1, 0); (1, 1)].

(** Whether the cell of [w] at index [i] is alive. *)
Definition alive_at (w : list Z) (i : Z) : bool :=
  match w !! Z.to_nat i with
  | Some v => alive v
  | None => false
  end.

(** The number of offsets of the neighbourhood of (x, y) whose cell,
    found through the toroidal index, is alive in [w]. *)
Definition live_neighbors (w : list Z) (x y W H : Z) : Z :=
  Z.of_nat (length (filter
    (λ d, alive_at w (translate_to_1D (x + d.1) (y + d.2) W H) = true)
    moore_offsets)).

(** All the cells that the loops of [count_live_neighbors] read lie
    inside the array [w]. *)
Definition neighbors_in_bounds (w : list Z) (x y W H : Z) : Prop :=
  Forall (λ d, translate_to_1D (x + d.1) (y + d.2) W H < Z.of_nat (length w))
    moore_offsets.

(** The centre cell is not counted: storing any value into the cell
    (x, y) of [world] leaves the count of its live neighbours as it was. *)
Definition center_not_counted (m : machine) (world : ptr) (x y W H : Z) : Prop :=
  ∀ v m',
    store m world (translate_to_1D x y W H) v = Some m' →
    count_live_neighbors m' world x y W H = count_live_neighbors m world x y W H.

(** The value of the cell (x, y) of the live grid [w] after it has been
    updated from the snapshot [c]. *)
Definition next_value (c w : list Z) (x y W H : Z) : Z :=
  let i := Z.to_nat (index x y W H) in
  let n := live_neighbors c x y W H in
  if alive_at c (index x y W H) && ((n <? 2) || (n >? 3)) then 0
  else if n =? 3 then 1
  else default 0 (w !! i).

(** Whether [update_cell] stores into the cell (x, y): it does in the
    death and in the birth branch. *)
Definition cell_written (c : list Z) (x y W H : Z) : bool :=
  let n := live_neighbors c x y W H in
  (alive_at c (index x y W H) && ((n <? 2) || (n >? 3))) || (n =? 3).

(** The machine after [update_cell] on the cell (x, y), with snapshot
    [c] and live grid [w] at [next]. *)
Definition cell_updated (m : machine) (next : ptr) (c w : list Z)
    (x y W H : Z) : machine :=
  Machine
    (<[next := <[Z.to_nat (index x y W H) := next_value c w x y W H]> w]> (heap m))
    (writes m ++
       if cell_written c x y W H then [(next, index x y W H)] else []).

(** The cells that [update_world] visits for a band, in the order of
    its two loops, each as (row, column). *)
Definition band_cells (W start_row end_row : Z) : list (Z * Z) :=
  y ← seqZ start_row (end_row - start_row + 1); (λ x, (y, x)) <$> seqZ 0 W.

(** The live grid after [update_cell] has run over [cells]. *)
Definition update_cells (c : list Z) (cells : list (Z * Z)) (w : list Z)
    (W H : Z) : list Z :=
  foldl (λ w '(y, x), <[Z.to_nat (index x y W H) := next_value c w x y W H]> w)
    w cells.

(** The stores logged while [update_cell] runs over [cells]. *)
Definition cells_writes (next : ptr) (c : list Z) (cells : list (Z * Z))
    (W H : Z) : list (ptr * Z) :=
  '(y, x) ← cells;
  if cell_written c x y W H then [(next, index x y W H)] else [].

(** The grid one generation after [w]: every cell updated from [w]. *)
Definition next_generation (w : list Z) (W H : Z) : list Z :=
  update_cells w (band_cells W 0 (H - 1)) w W H.

(** The number of rows of a band. *)
Definition band_size (band : Z * Z) : Z := band.2 - band.1 + 1.

(** Row [r] belongs to the band. *)
Definition in_band (r : Z) (band : Z * Z) : Prop := band.1 <= r <= band.2.

(** The first row of worker [i] when [H] rows are split among [T]
    workers: the workers before it took [H / T] rows each, and the first
    [H mod T] of them one more. *)
Definition band_start (T H i : Z) : Z := i * (H / T) + Z.min i (H mod T).

(** The number of rows of worker [i]. *)
Definition band_rows (T H i : Z) : Z :=
  H / T + (if i <? H mod T then 1 else 0).

(** The cells visited in one computing phase, band after band. *)
Definition all_cells (W : Z) (bands : list (Z * Z)) : list (Z * Z) :=
  b ← bands; band_cells W b.1 b.2.

(** The bands stay inside the rows 0..H-1 and leave no row out. *)
Definition covers (bands : list (Z * Z)) (H : Z) : Prop :=
  (∀ b r, b ∈ bands → in_band r b → 0 <= r < H) ∧
  (∀ r, 0 <= r < H → ∃ b, b ∈ bands ∧ in_band r b).

(** No row lies in the bands of two workers. *)
Definition disjoint_bands (bands : list (Z * Z)) : Prop :=
  ∀ i j bi bj r,
    bands !! i = Some bi → bands !! j = Some bj →
    in_band r bi → in_band r bj → i = j.

(** The stores of the copy loop of thread 0. *)
Definition snapshot_writes (copy : ptr) (n : Z) : list (ptr * Z) :=
  (λ i, (copy, i)) <$> seqZ 0 n.

(** The grid [k] generations after [w]. *)
Fixpoint generations (k : nat) (w : list Z) (W H : Z) : list Z :=
  match k with
  | O => w
  | S k => generations k (next_generation w W H) W H
  end.

(** The dimensions of a grid: W columns and H rows, with a number of
    cells W * H that an [int] holds, as the program computes it in
    [int]. *)
Definition grid_dims (W H : Z) : Prop :=
  0 < W ∧ 0 < H ∧ W * H <= max_signed.

(** The block [world] of [m] is a grid of these dimensions, with content
    [w], one [int] per cell. *)
Definition is_grid (m : machine) (world : ptr) (W H : Z) (w : list Z) : Prop :=
  grid_dims W H ∧ heap m !! world = Some w ∧ Z.of_nat (length w) = W * H.

(** (x, y) names a cell of a W by H grid. *)
Definition in_grid (x y W H : Z) : Prop := 0 <= x < W ∧ 0 <= y < H.

(** The stores that [m'] logged after those of [m]. *)
Definition new_writes (m m' : machine) : list (ptr * Z) :=
  drop (length (writes m)) (writes m').

(** ** Definitions of the specification of the configuration *)


(** The [n] announced pairs, as (col, row); [None] when one of them
    cannot be read. *)
Fixpoint take_pairs (n : nat) (toks : list token) : option (list (Z * Z)) :=
  match n with
  | O => Some []
  | S n =>
      '(col, toks) ← scan_number toks;
      '(row, toks) ← scan_number toks;
      ps ← take_pairs n toks;
      Some ((col, row) :: ps)
  end.


(** The index that a pair read with ["%u %u"] maps to through the
    toroidal index function of a grid of [W] columns and [H] rows. *)
Definition pair_index (W H : Z) (p : Z * Z) : Z :=
  translate_to_1D (to_int (to_unsigned p.1)) (to_int (to_unsigned p.2))
    (to_unsigned W) (to_unsigned H).

(** The text of the announced pairs, column before row. *)
Definition pair_tokens (ps : list (Z * Z)) : list token :=
  p ← ps; [Num p.1; Num p.2].

(** A configuration: rows, columns, the number of pairs, the pairs, and
    whatever follows them in the file. *)
Definition config_tokens (rows cols : Z) (ps : list (Z * Z))
    (rest : list token) : list token :=
  Num rows :: Num cols :: Num (Z.of_nat (length ps)) :: pair_tokens ps ++ rest.

(** The pair names a column and a row within one width and one height
    of the grid, on either side of it, by numbers that are [int]
    values. *)
Definition pair_in_reach (W H : Z) (p : Z * Z) : Prop :=
  - W <= p.1 < 2 * W ∧ p.1 <= max_signed ∧
  - H <= p.2 < 2 * H ∧ p.2 <= max_signed.

(** ** Definitions of the specification of the command line *)

(** The argument of the last option with the letter [ch]. *)
Definition last_arg (ch : ascii) (opts : list (ascii * string)) : option string :=
  foldl (λ acc '(c, a), if Ascii.eqb c ch then Some a else acc) None opts.

(** An option that makes [main] call [usage]: a letter that is not one
    of c, t, d and p, or a number that cannot be read after t, d or p. *)
Definition bad_option (opt : ascii * string) : Prop :=
  let '(ch, optarg) := opt in
  (ch ≠ "c" ∧ ch ≠ "t" ∧ ch ≠ "d" ∧ ch ≠ "p")%char ∨
  (ch ≠ "c"%char ∧ sscanf_d optarg = None).

(** ** Definitions of the specification of the screen *)

(** The character that stands for the cell (x, y) of the grid [w]. *)
Definition cell_char (w : list Z) (x y W H : Z) : ascii :=
  if alive_at w (index x y W H) then "@"%char else "."%char.

(** ** Sample grids *)

(** A blinker, vertical in the middle of a 5 by 5 grid. *)
Definition blinker : list Z :=
  [0; 0; 0; 0; 0;
   0; 0; 1; 0; 0;
   0; 0; 1; 0; 0;
   0; 0; 1; 0; 0;
   0; 0; 0; 0; 0].

(** A machine whose block 1 is the live grid and block 2 the snapshot,
    both holding the blinker. *)
Definition blinker_machine : machine :=
  Machine {[1%positive := blinker; 2%positive := blinker]} [].

(** The blinker in block 1 and a snapshot block 2 that holds something
    else. *)
Definition stale_machine : machine :=
  Machine {[1%positive := blinker; 2%positive := replicate 25 7]} [].

(** The grid of one cell, alive. *)
Definition one_cell_machine : machine := Machine {[1%positive := [1]]} [].

(** * Proofs *)

(** ** Machine integers *)

Lemma modulus_eq : modulus = 4294967296.
Proof. reflexivity. Qed.

Lemma max_signed_eq : max_signed = 2147483647.
Proof. reflexivity. Qed.

Lemma min_signed_eq : min_signed = -2147483648.
Proof. reflexivity. Qed.

Lemma to_unsigned_small z : 0 <= z < modulus → to_unsigned z = z.
Proof. intros Hz. unfold to_unsigned. by apply Z.mod_small. Qed.

Lemma to_unsigned_range z : 0 <= to_unsigned z < modulus.
Proof. unfold to_unsigned. apply Z.mod_pos_bound. by rewrite modulus_eq. Qed.

Lemma to_int_small z : is_int z → to_int z = z.
Proof.
  unfold is_int, to_int. rewrite min_signed_eq, max_signed_eq, modulus_eq.
  intros Hz. destruct (Z.lt_ge_cases z 0) as [Hneg|Hpos].
  - assert (z mod 4294967296 = z + 4294967296) as ->.
    { symmetry. apply (Z.mod_unique_pos _ _ (-1)); lia. }
    replace (2 ^ 31) with 2147483648 by reflexivity.
    destruct (Z.ltb_spec (z + 4294967296) 2147483648); lia.
  - rewrite Z.mod_small by lia.
    replace (2 ^ 31) with 2147483648 by reflexivity.
    destruct (Z.ltb_spec z 2147483648); lia.
Qed.

Lemma to_int_to_unsigned z : to_int (to_unsigned z) = to_int z.
Proof.
  unfold to_int, to_unsigned. rewrite Z.mod_mod; [done|]. by rewrite modulus_eq.
Qed.

Lemma to_unsigned_add_l a b : to_unsigned (to_unsigned a + b) = to_unsigned (a + b).
Proof. unfold to_unsigned. by rewrite Zplus_mod_idemp_l. Qed.

Lemma to_unsigned_sub_l a b : to_unsigned (to_unsigned a - b) = to_unsigned (a - b).
Proof. unfold to_unsigned. by rewrite Zminus_mod_idemp_l. Qed.

Lemma to_unsigned_mul_l a b : to_unsigned (to_unsigned a * b) = to_unsigned (a * b).
Proof. unfold to_unsigned. by rewrite Zmult_mod_idemp_l. Qed.

Lemma to_unsigned_add_r a b : to_unsigned (a + to_unsigned b) = to_unsigned (a + b).
Proof. unfold to_unsigned. by rewrite Zplus_mod_idemp_r. Qed.

(** ** Toroidal indexing *)

Lemma wrap_once_range c n : 0 < n → - n <= c < 2 * n → 0 <= wrap_once c n < n.
Proof.
  intros Hn Hc. unfold wrap_once.
  destruct (Z.ltb_spec c 0); [lia|].
  destruct (Z.geb_spec c n); lia.
Qed.

Lemma wrap_once_id c n : 0 <= c < n → wrap_once c n = c.
Proof.
  intros Hc. unfold wrap_once.
  destruct (Z.ltb_spec c 0); [lia|].
  destruct (Z.geb_spec c n); lia.
Qed.

Lemma index_range col row W H :
  0 < W → 0 < H → - W <= col < 2 * W → - H <= row < 2 * H →
  0 <= index col row W H < W * H.
Proof.
  intros HW HH Hc Hr. unfold index.
  pose proof (wrap_once_range col W HW Hc).
  pose proof (wrap_once_range row H HH Hr). nia.
Qed.

(** The machine coordinate after the two tests of [translate_to_1D]. *)
Lemma wrap_machine c n :
  0 < n <= max_signed → - n <= c < 2 * n → is_int c →
  (if c <? 0 then to_int (to_unsigned (to_unsigned c + n))
   else if c >=? to_int n then to_int (to_unsigned (to_unsigned c - n))
        else c) = wrap_once c n.
Proof.
  intros Hn Hc Hint. unfold wrap_once, is_int in *.
  rewrite max_signed_eq in *. rewrite min_signed_eq in *.
  rewrite (to_int_small n) by (unfold is_int; rewrite min_signed_eq, max_signed_eq; lia).
  rewrite to_unsigned_add_l, to_unsigned_sub_l, !to_int_to_unsigned.
  destruct (Z.ltb_spec c 0).
  - apply to_int_small. unfold is_int. rewrite min_signed_eq, max_signed_eq. lia.
  - destruct (Z.geb_spec c n); [|done].
    apply to_int_small. unfold is_int. rewrite min_signed_eq, max_signed_eq. lia.
Qed.

(** On dimensions that fit, [translate_to_1D] is the index of the
    specification. *)
Lemma translate_to_1D_index col row W H :
  0 < W <= max_signed → 0 < H <= max_signed → W * H <= modulus →
  - W <= col < 2 * W → - H <= row < 2 * H → is_int col → is_int row →
  translate_to_1D col row W H = index col row W H.
Proof.
  intros HW HH HWH Hc Hr Hic Hir. unfold translate_to_1D.
  rewrite (wrap_machine col W), (wrap_machine row H) by done.
  rewrite to_unsigned_mul_l, to_unsigned_add_l, to_unsigned_add_r.
  apply to_unsigned_small. fold (index col row W H).
  pose proof (index_range col row W H). lia.
Qed.

Lemma index_in_range x y W H : 0 <= x < W → 0 <= y < H → index x y W H = y * W + x.
Proof. intros Hx Hy. unfold index. by rewrite !wrap_once_id. Qed.

Lemma index_inj x1 y1 x2 y2 W H :
  0 <= x1 < W → 0 <= y1 < H → 0 <= x2 < W → 0 <= y2 < H →
  index x1 y1 W H = index x2 y2 W H → x1 = x2 ∧ y1 = y2.
Proof.
  intros ? ? ? ?. rewrite !index_in_range by done. intros Heq.
  assert (y1 = y2) by nia. split; [nia|done].
Qed.

Lemma grid_dims_bounds W H :
  grid_dims W H →
  0 < W <= max_signed ∧ 0 < H <= max_signed ∧ W * H <= modulus ∧
  to_unsigned W = W ∧ to_unsigned H = H.
Proof.
  intros (HW & HH & HWH). rewrite max_signed_eq in *.
  assert (W <= 2147483647) by nia. assert (H <= 2147483647) by nia.
  rewrite !to_unsigned_small by (rewrite modulus_eq; lia).
  rewrite modulus_eq. lia.
Qed.

(** The index of a neighbour of a cell of the grid. *)
Lemma translate_neighbor x y dx dy W H :
  grid_dims W H → in_grid x y W H → -1 <= dx <= 1 → -1 <= dy <= 1 →
  translate_to_1D (x + dx) (y + dy) W H = index (x + dx) (y + dy) W H ∧
  0 <= index (x + dx) (y + dy) W H < W * H.
Proof.
  intros Hd [Hx Hy] Hdx Hdy.
  destruct (grid_dims_bounds W H Hd) as (HW & HH & HWH & _).
  rewrite max_signed_eq in *. split.
  - apply translate_to_1D_index; try done; try lia;
      unfold is_int; rewrite min_signed_eq, max_signed_eq; lia.
  - apply index_range; lia.
Qed.

Lemma translate_cell x y W H :
  grid_dims W H → in_grid x y W H →
  translate_to_1D x y W H = index x y W H ∧ 0 <= index x y W H < W * H.
Proof.
  intros Hd Hin.
  pose proof (translate_neighbor x y 0 0 W H Hd Hin) as Hn.
  rewrite !Z.add_0_r in Hn. apply Hn; lia.
Qed.

(** ** Loops and memory *)

Lemma for_each_app {A S} (l1 l2 : list A) (body : A → S → option S) s :
  for_each (l1 ++ l2) body s = for_each l1 body s ≫= for_each l2 body.
Proof.
  revert s. induction l1 as [|a l1 IH]; intros s; simpl; [done|].
  destruct (body a s) as [s'|]; simpl; [apply IH|done].
Qed.

(** A loop nested in a loop runs its body over the pairs of counters. *)
Lemma for_each_nested {A B S} (l : list A) (inner : A → list B)
    (body : A → B → S → option S) s :
  for_each l (λ a s, for_each (inner a) (body a) s) s =
  for_each (a ← l; (λ b, (a, b)) <$> inner a) (λ '(a, b) s, body a b s) s.
Proof.
  revert s. induction l as [|a l IH]; intros s; simpl; [done|].
  rewrite for_each_app.
  assert (∀ s, for_each ((λ b, (a, b)) <$> inner a) (λ '(a, b) s, body a b s) s
               = for_each (inner a) (body a) s) as Hin.
  { clear. induction (inner a) as [|b lb IHb]; intros s; simpl; [done|].
    destruct (body a b s); simpl; [apply IHb|done]. }
  rewrite Hin. destruct (for_each (inner a) (body a) s); simpl; [apply IH|done].
Qed.

Lemma for_each_ext {A S} (l : list A) (f g : A → S → option S) s :
  (∀ a s, a ∈ l → f a s = g a s) → for_each l f s = for_each l g s.
Proof.
  revert s. induction l as [|a l IH]; intros s Hfg; simpl; [done|].
  rewrite Hfg by set_solver. destruct (g a s); simpl; [|done].
  apply IH. intros; apply Hfg; set_solver.
Qed.

Lemma seqZ_three a : seqZ (a - 1) 3 = [a + -1; a + 0; a + 1].
Proof.
  unfold seqZ. simpl.
  replace (Z.of_nat 0 + (a - 1)) with (a + -1) by lia.
  replace (Z.of_nat 1 + (a - 1)) with (a + 0) by lia.
  by replace (Z.of_nat 2 + (a - 1)) with (a + 1) by lia.
Qed.

Lemma load_heap m p l i :
  heap m !! p = Some l → 0 <= i → load m p i = l !! Z.to_nat i.
Proof.
  intros Hp Hi. unfold load. rewrite Hp. simpl.
  by rewrite bool_decide_eq_true_2.
Qed.

Lemma store_heap m p l i v :
  heap m !! p = Some l → 0 <= i < Z.of_nat (length l) →
  store m p i v =
    Some (Machine (<[p := <[Z.to_nat i := v]> l]> (heap m)) (writes m ++ [(p, i)])).
Proof.
  intros Hp Hi. unfold store. rewrite Hp. simpl.
  by rewrite bool_decide_eq_true_2.
Qed.

Lemma lookup_in_bounds (l : list Z) i :
  0 <= i < Z.of_nat (length l) → ∃ v, l !! Z.to_nat i = Some v.
Proof.
  intros Hi. apply lookup_lt_is_Some. lia.
Qed.

(** ** The neighbour count *)

Lemma b2z_range b : 0 <= Z.b2z b <= 1.
Proof. destruct b; simpl; lia. Qed.

Lemma translate_to_1D_nonneg col row W H : 0 <= translate_to_1D col row W H.
Proof. unfold translate_to_1D. apply to_unsigned_range. Qed.

Lemma count_cell_center m world x y W H sum :
  count_cell m world x y W H (x + 0) (y + 0) sum = Some sum.
Proof.
  unfold count_cell. rewrite !Z.add_0_r, !Z.eqb_refl. done.
Qed.

Lemma count_cell_other m world w x y W H dx dy sum :
  heap m !! world = Some w →
  dx ≠ 0 ∨ dy ≠ 0 →
  translate_to_1D (x + dx) (y + dy) W H < Z.of_nat (length w) →
  0 <= sum < 8 →
  count_cell m world x y W H (x + dx) (y + dy) sum =
    Some (sum + Z.b2z (alive_at w (translate_to_1D (x + dx) (y + dy) W H))).
Proof.
  intros Hw Hd Hi Hsum. unfold count_cell.
  assert ((x + dx =? x) && (y + dy =? y) = false) as ->.
  { apply andb_false_iff. rewrite !Z.eqb_neq. lia. }
  pose proof (translate_to_1D_nonneg (x + dx) (y + dy) W H) as Hnn.
  rewrite (load_heap m world w) by done.
  destruct (lookup_in_bounds w _ (conj Hnn Hi)) as [v Hv].
  unfold alive_at. rewrite Hv. simpl. unfold alive, ALIVE.
  destruct (v =? 1); simpl.
  - rewrite to_unsigned_small; [done|rewrite modulus_eq; lia].
  - by rewrite Z.add_0_r.
Qed.

Lemma length_filter_b2z {A} (f : A → bool) (l : list A) :
  Z.of_nat (length (filter (λ a, f a = true) l)) =
  foldr (λ a acc, Z.b2z (f a) + acc) 0 l.
Proof.
  induction l as [|a l IH]; [done|].
  rewrite filter_cons. simpl. destruct (decide (f a = true)) as [Ha|Ha].
  - rewrite Ha. simpl length. rewrite Nat2Z.inj_succ, IH. simpl. lia.
  - apply not_true_is_false in Ha. rewrite Ha, IH. simpl. lia.
Qed.

Lemma count_live_neighbors_heap m world w x y W H :
  heap m !! world = Some w →
  neighbors_in_bounds w x y W H →
  count_live_neighbors m world x y W H = Some (live_neighbors w x y W H).
Proof.
  intros Hw Hb. unfold count_live_neighbors, live_neighbors.
  rewrite length_filter_b2z. unfold neighbors_in_bounds, moore_offsets in *.
  repeat match goal with
         | H : Forall _ (_ :: _) |- _ =>
             apply Forall_cons in H; destruct H as [? H]
         end.
  rewrite (seqZ_three x), (seqZ_three y). simpl in *.
  repeat
    (first
       [ rewrite count_cell_center; simpl
       | erewrite count_cell_other;
         [simpl|exact Hw|lia|assumption|
          repeat match goal with
                 | |- context [Z.b2z ?b] =>
                     lazymatch goal with
                     | _ : 0 <= Z.b2z b <= 1 |- _ => fail
                     | _ => pose proof (b2z_range b)
                     end
                 end; lia] ]).
  f_equal. lia.
Qed.

Lemma live_neighbors_range w x y W H : 0 <= live_neighbors w x y W H <= 8.
Proof.
  unfold live_neighbors.
  pose proof (length_filter
    (λ d, alive_at w (translate_to_1D (x + d.1) (y + d.2) W H) = true)
    moore_offsets) as Hl.
  simpl in Hl. lia.
Qed.

Lemma neighbors_in_bounds_grid w x y W H :
  grid_dims W H → in_grid x y W H → Z.of_nat (length w) = W * H →
  neighbors_in_bounds w x y W H.
Proof.
  intros Hd Hin Hlen. unfold neighbors_in_bounds, moore_offsets.
  repeat apply Forall_cons_2; try apply Forall_nil_2; simpl;
    match goal with
    | |- translate_to_1D (x + ?dx) (y + ?dy) W H < _ =>
        destruct (translate_neighbor x y dx dy W H Hd Hin) as [-> ?]; lia
    end.
Qed.

(** ** One cell *)

Lemma machine_eta m : Machine (heap m) (writes m) = m.
Proof. by destruct m. Qed.

Lemma update_cell_grid m curr next c w x y W H :
  grid_dims W H → in_grid x y W H →
  heap m !! curr = Some c → Z.of_nat (length c) = W * H →
  heap m !! next = Some w → Z.of_nat (length w) = W * H →
  update_cell m curr next x y W H = Some (cell_updated m next c w x y W H).
Proof.
  intros Hd Hin Hc Hlc Hw Hlw. unfold update_cell, cell_updated.
  destruct (grid_dims_bounds W H Hd) as (_ & _ & _ & -> & ->).
  rewrite (count_live_neighbors_heap m curr c)
    by eauto using neighbors_in_bounds_grid.
  destruct (translate_cell x y W H Hd Hin) as [-> Hi]. simpl.
  rewrite (load_heap m curr c) by (done || lia).
  destruct (lookup_in_bounds c (index x y W H)) as [cv Hcv]; [lia|].
  destruct (lookup_in_bounds w (index x y W H)) as [wv Hwv]; [lia|].
  rewrite Hcv. simpl. unfold next_value, cell_written, alive_at.
  rewrite Hcv, Hwv. unfold alive, ALIVE. simpl.
  set (n := live_neighbors c x y W H).
  destruct ((cv =? 1) && ((n <? 2) || (n >? 3))) eqn:Hdie; simpl.
  - rewrite (store_heap m next w) by (done || lia). done.
  - destruct (n =? 3) eqn:Hborn.
    + rewrite (store_heap m next w) by (done || lia). done.
    + rewrite list_insert_id by done. rewrite insert_id by done.
      by rewrite app_nil_r, machine_eta.
Qed.

(** ** A sequence of cells *)

Lemma update_world_band_cells m world copy W H s e :
  update_world m world copy W H s e =
  for_each (band_cells W s e)
    (λ '(y, x) m, update_cell m copy world x y W H) m.
Proof.
  unfold update_world, band_cells.
  apply (for_each_nested (seqZ s (e - s + 1)) (λ _, seqZ 0 W)
           (λ y x m, update_cell m copy world x y W H)).
Qed.

Lemma update_cells_length c cells w W H :
  length (update_cells c cells w W H) = length w.
Proof.
  revert w. induction cells as [|[y x] cells IH]; intros w; [done|].
  unfold update_cells in *. simpl. rewrite IH. apply length_insert.
Qed.

Lemma update_cells_cons c y x cells w W H :
  update_cells c ((y, x) :: cells) w W H =
  update_cells c cells
    (<[Z.to_nat (index x y W H) := next_value c w x y W H]> w) W H.
Proof. done. Qed.

Lemma for_each_update_cell m world copy c w W H cells :
  world ≠ copy → grid_dims W H →
  heap m !! copy = Some c → Z.of_nat (length c) = W * H →
  heap m !! world = Some w → Z.of_nat (length w) = W * H →
  Forall (λ '(y, x), in_grid x y W H) cells →
  for_each cells (λ '(y, x) m, update_cell m copy world x y W H) m =
    Some (Machine (<[world := update_cells c cells w W H]> (heap m))
                  (writes m ++ cells_writes world c cells W H)).
Proof.
  intros Hne Hd Hc Hlc. revert m w Hc.
  induction cells as [|[y x] cells IH]; intros m w Hc Hw Hlw Hall.
  - simpl. rewrite insert_id by done. by rewrite app_nil_r, machine_eta.
  - apply Forall_cons in Hall as [Hin Hall]. simpl.
    rewrite (update_cell_grid m copy world c w) by done. simpl.
    rewrite (IH (cell_updated m world c w x y W H)
               (<[Z.to_nat (index x y W H) := next_value c w x y W H]> w)).
    + unfold cell_updated. simpl.
      rewrite insert_insert_eq. by rewrite <- app_assoc.
    + unfold cell_updated. simpl. by rewrite lookup_insert_ne.
    + unfold cell_updated. simpl. by rewrite lookup_insert_eq.
    + by rewrite length_insert.
    + done.
Qed.

Lemma next_value_ext c w1 w2 x y W H :
  w1 !! Z.to_nat (index x y W H) = w2 !! Z.to_nat (index x y W H) →
  next_value c w1 x y W H = next_value c w2 x y W H.
Proof. intros Heq. unfold next_value. by rewrite Heq. Qed.

Lemma index_to_nat_inj x1 y1 x2 y2 W H :
  0 < W → 0 < H → in_grid x1 y1 W H → in_grid x2 y2 W H →
  Z.to_nat (index x1 y1 W H) = Z.to_nat (index x2 y2 W H) →
  x1 = x2 ∧ y1 = y2.
Proof.
  intros HW HH [? ?] [? ?] Heq.
  apply (index_inj x1 y1 x2 y2 W H); try done.
  pose proof (index_range x1 y1 W H). pose proof (index_range x2 y2 W H). lia.
Qed.

(** The cells outside [cells] keep their value. *)
Lemma update_cells_lookup_other c cells w W H x y :
  0 < W → 0 < H → Z.of_nat (length w) = W * H →
  Forall (λ '(y, x), in_grid x y W H) cells →
  in_grid x y W H → (y, x) ∉ cells →
  update_cells c cells w W H !! Z.to_nat (index x y W H)
    = w !! Z.to_nat (index x y W H).
Proof.
  intros HW HH. revert w.
  induction cells as [|[y0 x0] cells IH]; intros w Hlw Hall Hin Hnot; [done|].
  apply Forall_cons in Hall as [Hin0 Hall].
  apply not_elem_of_cons in Hnot as [Hneq Hnot].
  rewrite update_cells_cons, IH; try done; [|by rewrite length_insert].
  apply list_lookup_insert_ne. intros Heq.
  apply index_to_nat_inj in Heq as [-> ->]; done.
Qed.

(** The cells of [cells] hold the value that the rule gives them; a cell
    listed twice is stored twice with the same value. *)
Lemma update_cells_lookup_in c cells w W H x y :
  0 < W → 0 < H → Z.of_nat (length w) = W * H →
  Forall (λ '(y, x), in_grid x y W H) cells →
  in_grid x y W H → (y, x) ∈ cells →
  update_cells c cells w W H !! Z.to_nat (index x y W H)
    = Some (next_value c w x y W H).
Proof.
  intros HW HH. revert w.
  induction cells as [|[y0 x0] cells IH]; intros w Hlw Hall Hin Hel.
  { by apply elem_of_nil in Hel. }
  apply Forall_cons in Hall as [Hin0 Hall].
  rewrite update_cells_cons.
  set (w1 := <[Z.to_nat (index x0 y0 W H) := next_value c w x0 y0 W H]> w).
  assert (Z.of_nat (length w1) = W * H) as Hlw1
    by (unfold w1; by rewrite length_insert).
  assert (Z.to_nat (index x y W H) < length w)%nat as Hlt.
  { destruct Hin. pose proof (index_range x y W H). lia. }
  destruct (decide ((y, x) = (y0, x0))) as [[= -> ->]|Hneq].
  - assert (next_value c w1 x0 y0 W H = next_value c w x0 y0 W H) as Hidem.
    { unfold next_value at 1. unfold w1 at 1.
      rewrite list_lookup_insert_eq by done. simpl.
      unfold next_value.
      destruct (alive_at c (index x0 y0 W H) && _); [done|].
      by destruct (live_neighbors c x0 y0 W H =? 3). }
    destruct (decide ((y0, x0) ∈ cells)) as [Hel'|Hnot].
    + rewrite IH by done. by rewrite Hidem.
    + rewrite update_cells_lookup_other by done.
      unfold w1. by rewrite list_lookup_insert_eq.
  - apply elem_of_cons in Hel as [?|Hel]; [done|].
    rewrite IH by done. f_equal. apply next_value_ext.
    unfold w1. apply list_lookup_insert_ne. intros Heq.
    apply index_to_nat_inj in Heq as [-> ->]; done.
Qed.

(** Every index of the array is the index of a cell of the grid. *)
Lemma index_surj i W H :
  0 < W → 0 < H → (i < Z.to_nat (W * H))%nat →
  ∃ x y, in_grid x y W H ∧ Z.to_nat (index x y W H) = i.
Proof.
  intros HW HH Hi. exists (Z.of_nat i mod W), (Z.of_nat i / W).
  pose proof (Z.mod_pos_bound (Z.of_nat i) W HW) as Hm.
  pose proof (Z.div_mod (Z.of_nat i) W) as Hdm.
  assert (0 <= Z.of_nat i / W) by (apply Z.div_pos; lia).
  assert (Z.of_nat i / W < H).
  { apply Z.div_lt_upper_bound; [done|]. lia. }
  split; [split; lia|]. rewrite index_in_range by lia. lia.
Qed.

(** Two runs that visit the same set of cells leave the same grid. *)
Lemma update_cells_same_cells c cells1 cells2 w W H :
  0 < W → 0 < H → Z.of_nat (length w) = W * H →
  Forall (λ '(y, x), in_grid x y W H) cells1 →
  Forall (λ '(y, x), in_grid x y W H) cells2 →
  (∀ y x, (y, x) ∈ cells1 ↔ (y, x) ∈ cells2) →
  update_cells c cells1 w W H = update_cells c cells2 w W H.
Proof.
  intros HW HH Hlw Hall1 Hall2 Hsame. apply list_eq. intros i.
  destruct (decide (i < Z.to_nat (W * H))%nat) as [Hi|Hi].
  - destruct (index_surj i W H HW HH Hi) as (x & y & Hin & <-).
    destruct (decide ((y, x) ∈ cells1)) as [Hel|Hnot].
    + rewrite !update_cells_lookup_in; try done. by apply Hsame.
    + rewrite !update_cells_lookup_other; try done. by rewrite <- Hsame.
  - rewrite !lookup_ge_None_2; [done| |];
      rewrite update_cells_length; lia.
Qed.

Lemma elem_of_band_cells W s e y x :
  (y, x) ∈ band_cells W s e ↔ s <= y <= e ∧ 0 <= x < W.
Proof.
  unfold band_cells. rewrite list_elem_of_bind. split.
  - intros (y' & Hx & Hy). apply list_elem_of_fmap in Hx as (x' & [= -> ->] & Hx).
    apply elem_of_seqZ in Hx. apply elem_of_seqZ in Hy. lia.
  - intros [Hy Hx]. exists y. split.
    + apply list_elem_of_fmap. exists x. split; [done|].
      apply elem_of_seqZ. lia.
    + apply elem_of_seqZ. lia.
Qed.

Lemma band_cells_in_grid W H s e :
  0 <= s → e < H → Forall (λ '(y, x), in_grid x y W H) (band_cells W s e).
Proof.
  intros Hs He. apply Forall_forall. intros [y x] Hel.
  apply elem_of_band_cells in Hel. unfold in_grid. lia.
Qed.

Lemma elem_of_all_cells W bands y x :
  (y, x) ∈ all_cells W bands ↔ (∃ b, b ∈ bands ∧ in_band y b) ∧ 0 <= x < W.
Proof.
  unfold all_cells. rewrite list_elem_of_bind. split.
  - intros (b & Hel & Hb). apply elem_of_band_cells in Hel. unfold in_band.
    split; [exists b|]; tauto.
  - intros [(b & Hb & Hy) Hx]. exists b. rewrite elem_of_band_cells. done.
Qed.

Lemma all_cells_in_grid W H bands :
  covers bands H → Forall (λ '(y, x), in_grid x y W H) (all_cells W bands).
Proof.
  intros [Hin _]. apply Forall_forall. intros [y x] Hel.
  apply elem_of_all_cells in Hel as [(b & Hb & Hy) Hx].
  split; [done|]. by apply (Hin b).
Qed.

Lemma for_each_bind {A B S} (l : list A) (f : A → list B)
    (body : B → S → option S) s :
  for_each (l ≫= f) body s = for_each l (λ a s, for_each (f a) body s) s.
Proof.
  revert s. induction l as [|a l IH]; intros s; [done|].
  change ((a :: l) ≫= f) with (f a ++ (l ≫= f)).
  rewrite for_each_app. simpl.
  destruct (for_each (f a) body s); simpl; [apply IH|done].
Qed.

(** The computing phase of a list of bands is a run of [update_cell]
    over all their cells. *)
Lemma for_each_update_world m world copy W H bands :
  for_each bands (λ b m, update_world m world copy W H b.1 b.2) m =
  for_each (all_cells W bands)
    (λ '(y, x) m, update_cell m copy world x y W H) m.
Proof.
  unfold all_cells. rewrite for_each_bind. apply for_each_ext.
  intros b m' _. apply update_world_band_cells.
Qed.

(** A covering list of bands computes the next generation, whatever the
    number and the order of the bands. *)
Lemma update_cells_covers c w W H bands :
  0 < W → 0 < H → Z.of_nat (length w) = W * H → covers bands H →
  update_cells c (all_cells W bands) w W H =
  update_cells c (band_cells W 0 (H - 1)) w W H.
Proof.
  intros HW HH Hlw Hcov. apply update_cells_same_cells; try done.
  - by apply all_cells_in_grid.
  - apply band_cells_in_grid; lia.
  - intros y x. rewrite elem_of_all_cells, elem_of_band_cells.
    destruct Hcov as [Hin Hall]. split.
    + intros [(b & Hb & Hy) Hx]. specialize (Hin b y Hb Hy). lia.
    + intros [Hy Hx]. split; [apply Hall; lia|done].
Qed.

Lemma next_generation_length w W H :
  length (next_generation w W H) = length w.
Proof. apply update_cells_length. Qed.

(** ** The snapshot *)

(** The copy loop from position [k] on, when the first [k] cells have
    been copied already. *)
Lemma copy_loop_from world copy w (j : nat) :
  world ≠ copy →
  ∀ m (k : nat) c,
    (k + j)%nat = length w →
    heap m !! world = Some w → heap m !! copy = Some c →
    length c = length w → take k c = take k w →
    for_each (seqZ (Z.of_nat k) (Z.of_nat j))
      (λ i m, v ← load m world i; store m copy i v) m =
    Some (Machine (<[copy := w]> (heap m))
            (writes m ++ ((λ i, (copy, i)) <$> seqZ (Z.of_nat k) (Z.of_nat j)))).
Proof.
  intros Hne. induction j as [|j IH]; intros m k c Hk Hw Hc Hlen Htake.
  - simpl. rewrite app_nil_r.
    assert (c = w) as ->.
    { rewrite <- (take_ge c k), <- (take_ge w k) by lia. done. }
    rewrite insert_id by done. by rewrite machine_eta.
  - rewrite seqZ_cons by lia. simpl.
    replace (Z.pred (Z.of_nat (S j))) with (Z.of_nat j) by lia.
    replace (Z.succ (Z.of_nat k)) with (Z.of_nat (S k)) by lia.
    rewrite (load_heap m world w) by (done || lia).
    rewrite Nat2Z.id.
    destruct (lookup_lt_is_Some_2 w k) as [v Hv]; [lia|].
    rewrite Hv. simpl.
    rewrite (store_heap m copy c) by (done || lia). simpl.
    rewrite Nat2Z.id.
    rewrite (IH _ (S k) (<[k := v]> c)); simpl.
    + rewrite insert_insert_eq. by rewrite <- app_assoc.
    + lia.
    + by rewrite lookup_insert_ne.
    + by rewrite lookup_insert_eq.
    + by rewrite length_insert.
    + rewrite (take_S_r w k v) by done.
      rewrite (take_S_r (<[k := v]> c) k v)
        by (apply list_lookup_insert_eq; lia).
      rewrite take_insert_ge by lia. by rewrite Htake.
Qed.

Lemma copy_loop world copy w c m n :
  world ≠ copy →
  heap m !! world = Some w → heap m !! copy = Some c →
  Z.of_nat (length w) = n → Z.of_nat (length c) = n →
  for_each (seqZ 0 n) (λ i m, v ← load m world i; store m copy i v) m =
  Some (Machine (<[copy := w]> (heap m)) (writes m ++ snapshot_writes copy n)).
Proof.
  intros Hne Hw Hc Hlw Hlc. subst n.
  apply (copy_loop_from world copy w (length w) Hne m 0%nat c); try done. lia.
Qed.

(** ** The threads of a turn *)

(** Only the thread with id 0 takes the snapshot. *)
Lemma snapshot_phase_leader td m :
  id td = 0 →
  snapshot_phase td m =
  for_each (seqZ 0 (width td * height td))
    (λ i m, v ← load m (world td) i; store m (world_copy td) i v) m.
Proof. intros Hid. unfold snapshot_phase. by rewrite Hid. Qed.

Lemma snapshot_phase_other td m : id td ≠ 0 → snapshot_phase td m = Some m.
Proof.
  intros Hid. unfold snapshot_phase. by destruct (Z.eqb_spec (id td) 0).
Qed.

Lemma snapshot_phase_others turns wld W H copy bands (k : nat) m :
  for_each
    (imap (λ i band, {| id := Z.of_nat (S k + i); world := wld; width := W;
       height := H; num_turns := turns; start_row := band.1;
       end_row := band.2; world_copy := copy |}) bands) snapshot_phase m
  = Some m.
Proof.
  revert k. induction bands as [|b bands IH]; intros k; [done|].
  rewrite imap_cons. cbn [for_each].
  rewrite snapshot_phase_other by (simpl; lia). simpl.
  etrans; [|apply (IH (S k))].
  apply (f_equal (λ l, for_each l snapshot_phase m)).
  apply imap_ext. intros i b' _. simpl. do 2 f_equal. lia.
Qed.

Lemma snapshot_phase_threads turns wld W H copy bands m :
  for_each (thread_data turns wld W H copy bands) snapshot_phase m =
  match bands with
  | [] => Some m
  | _ :: _ =>
      for_each (seqZ 0 (W * H))
        (λ i m, v ← load m wld i; store m copy i v) m
  end.
Proof.
  unfold thread_data. destruct bands as [|b bands]; [done|].
  rewrite imap_cons. cbn [for_each].
  rewrite snapshot_phase_leader by done. simpl.
  destruct (for_each (seqZ 0 (W * H)) _ m) as [m'|]; simpl; [|done].
  apply (snapshot_phase_others turns wld W H copy bands 0 m').
Qed.

Lemma compute_phase_imap (ids : nat → Z) turns wld W H copy bands m :
  for_each
    (imap (λ i band, {| id := ids i; world := wld; width := W;
       height := H; num_turns := turns; start_row := band.1;
       end_row := band.2; world_copy := copy |}) bands) compute_phase m =
  for_each bands (λ b m, update_world m wld copy W H b.1 b.2) m.
Proof.
  revert ids m. induction bands as [|b bands IH]; intros ids m; [done|].
  rewrite imap_cons. cbn [for_each].
  change (compute_phase _ m) with (update_world m wld copy W H b.1 b.2).
  destruct (update_world m wld copy W H b.1 b.2) as [m'|]; simpl; [|done].
  apply (IH (ids ∘ S)).
Qed.

Lemma compute_phase_threads turns wld W H copy bands m :
  for_each (thread_data turns wld W H copy bands) compute_phase m =
  for_each bands (λ b m, update_world m wld copy W H b.1 b.2) m.
Proof. apply (compute_phase_imap (λ i, Z.of_nat i)). Qed.

(** ** A turn, and the turns of a run *)

Lemma turn_grid turns wld copy W H bands m w c :
  wld ≠ copy → grid_dims W H →
  heap m !! wld = Some w → Z.of_nat (length w) = W * H →
  heap m !! copy = Some c → Z.of_nat (length c) = W * H →
  bands ≠ [] → covers bands H →
  turn (thread_data turns wld W H copy bands) m =
    Some (Machine
            (<[wld := next_generation w W H]> (<[copy := w]> (heap m)))
            (writes m ++ snapshot_writes copy (W * H) ++
               cells_writes wld w (all_cells W bands) W H)).
Proof.
  intros Hne Hd Hw Hlw Hc Hlc Hbands Hcov. unfold turn.
  rewrite snapshot_phase_threads.
  destruct bands as [|b bands'] eqn:Ebands; [done|].
  rewrite <- Ebands in *. clear Ebands Hbands b bands'.
  rewrite (copy_loop wld copy w c) by done. cbn [mbind option_bind].
  rewrite compute_phase_threads, for_each_update_world.
  rewrite (for_each_update_cell _ wld copy w w); cbn [heap writes]; try done.
  - rewrite update_cells_covers by (done || apply Hd).
    by rewrite <- app_assoc.
  - by rewrite lookup_insert_eq.
  - by rewrite lookup_insert_ne.
  - by apply all_cells_in_grid.
Qed.

Lemma generations_length k w W H : length (generations k w W H) = length w.
Proof.
  revert w. induction k as [|k IH]; intros w; [done|]. simpl.
  by rewrite IH, next_generation_length.
Qed.

Lemma turns_grid {A} turns wld copy W H bands (l : list A) :
  wld ≠ copy → grid_dims W H → bands ≠ [] → covers bands H →
  ∀ m w c,
    heap m !! wld = Some w → Z.of_nat (length w) = W * H →
    heap m !! copy = Some c → Z.of_nat (length c) = W * H →
    ∃ m',
      for_each l (λ _ m, turn (thread_data turns wld W H copy bands) m) m
        = Some m' ∧
      heap m' !! wld = Some (generations (length l) w W H) ∧
      (∃ c', heap m' !! copy = Some c' ∧ Z.of_nat (length c') = W * H) ∧
      (∀ r, r ≠ wld → r ≠ copy → heap m' !! r = heap m !! r).
Proof.
  intros Hne Hd Hbands Hcov.
  induction l as [|a l IH]; intros m w c Hw Hlw Hc Hlc.
  - exists m. simpl. eauto 10.
  - simpl. rewrite (turn_grid turns wld copy W H bands m w c) by done.
    simpl.
    destruct (IH (Machine
                (<[wld := next_generation w W H]> (<[copy := w]> (heap m)))
                (writes m ++ snapshot_writes copy (W * H) ++
                   cells_writes wld w (all_cells W bands) W H))
              (next_generation w W H) w)
      as (m' & Hrun & Hw' & Hc' & Hframe); simpl.
    + by rewrite lookup_insert_eq.
    + by rewrite next_generation_length.
    + rewrite lookup_insert_ne by done. by rewrite lookup_insert_eq.
    + done.
    + exists m'. split; [done|]. split; [done|]. split; [done|].
      intros r Hr1 Hr2. rewrite Hframe by done. simpl.
      by rewrite !lookup_insert_ne.
Qed.

(** The run: the world block holds the grid [num_turns] generations on,
    and nothing else of the heap has changed. *)
Lemma run_threads_grid m T turns wld W H w junk :
  is_grid m wld W H w → T ≠ 0 →
  row_bands T H ≠ [] → covers (row_bands T H) H →
  ∃ m',
    run_threads m T turns wld W H junk = Some m' ∧
    heap m' = <[wld := generations (Z.to_nat turns) w W H]> (heap m).
Proof.
  intros (Hd & Hw & Hlw) HT Hbands Hcov. unfold run_threads, malloc.
  destruct (Z.eqb_spec T 0); [done|].
  set (copy := fresh (dom (heap m))).
  assert (heap m !! copy = None) as Hfresh.
  { apply not_elem_of_dom. apply is_fresh. }
  assert (wld ≠ copy) as Hne by congruence.
  destruct (turns_grid turns wld copy W H (row_bands T H) (seqZ 0 turns)
              Hne Hd Hbands Hcov
              (Machine (<[copy := resize (Z.to_nat (W * H)) 0 junk]> (heap m))
                       (writes m))
              w (resize (Z.to_nat (W * H)) 0 junk))
    as (m' & Hrun & Hw' & _ & Hframe); simpl.
  - by rewrite lookup_insert_ne.
  - done.
  - by rewrite lookup_insert_eq.
  - rewrite length_resize. destruct Hd as (? & ? & _). nia.
  - rewrite Hrun. simpl. eexists. split; [done|]. unfold free. simpl.
    rewrite length_seqZ in Hw'. apply map_eq. intros r.
    destruct (decide (r = copy)) as [->|Hr1].
    { rewrite lookup_delete_eq, lookup_insert_ne by done. done. }
    rewrite lookup_delete_ne by done.
    destruct (decide (r = wld)) as [->|Hr2].
    { by rewrite lookup_insert_eq. }
    rewrite lookup_insert_ne by done. rewrite Hframe by done. simpl.
    by rewrite lookup_insert_ne.
Qed.

(** ** The row partition *)

Lemma is_int_intro z : -1 <= z <= max_signed → is_int z.
Proof. unfold is_int. rewrite min_signed_eq. lia. Qed.

Lemma assign_rows_length n remainder cur base :
  length (assign_rows n remainder cur base) = n.
Proof.
  revert remainder cur. induction n as [|n IH]; intros remainder cur; [done|].
  simpl. destruct (0 <? remainder); simpl; by rewrite IH.
Qed.

Lemma assign_rows_lookup n :
  ∀ remainder cur base (i : nat),
    0 <= remainder → 0 <= base → 0 <= cur →
    cur + Z.of_nat n * base + Z.min remainder (Z.of_nat n) <= max_signed →
    (i < n)%nat →
    assign_rows n remainder cur base !! i =
      Some (cur + Z.of_nat i * base + Z.min (Z.of_nat i) remainder,
            cur + Z.of_nat i * base + Z.min (Z.of_nat i) remainder + base
            + (if Z.of_nat i <? remainder then 1 else 0) - 1).
Proof.
  induction n as [|n IH]; intros remainder cur base i Hr Hb Hc Hmax Hi; [lia|].
  assert (0 <= Z.of_nat n * base) by (apply Z.mul_nonneg_nonneg; lia).
  simpl assign_rows. destruct (Z.ltb_spec 0 remainder) as [Hpos|Hzero].
  - rewrite to_unsigned_add_l, to_int_to_unsigned.
    rewrite to_int_small by (apply is_int_intro; nia).
    destruct i as [|i]; simpl lookup.
    + destruct (Z.ltb_spec (Z.of_nat 0) remainder); [|lia].
      f_equal. f_equal; lia.
    + rewrite IH by (lia || nia).
      destruct (Z.ltb_spec (Z.of_nat i) (remainder - 1));
        destruct (Z.ltb_spec (Z.of_nat (S i)) remainder); try lia;
        f_equal; f_equal; nia.
  - assert (remainder = 0) as -> by lia.
    rewrite to_unsigned_sub_l.
    replace (to_unsigned cur + base - 1) with (to_unsigned cur + (base - 1))
      by lia.
    rewrite to_unsigned_add_l, to_int_to_unsigned.
    rewrite to_int_small by (apply is_int_intro; nia).
    destruct i as [|i]; simpl lookup.
    + destruct (Z.ltb_spec (Z.of_nat 0) 0); [lia|].
      f_equal. f_equal; lia.
    + rewrite IH by (lia || nia).
      destruct (Z.ltb_spec (Z.of_nat i) 0);
        destruct (Z.ltb_spec (Z.of_nat (S i)) 0); try lia;
        f_equal; f_equal; nia.
Qed.

Lemma row_bands_length T H : length (row_bands T H) = Z.to_nat T.
Proof. apply assign_rows_length. Qed.

(** Between two values of a sequence that starts at or below [r] and ends
    above it lies a step that contains [r]. *)
Lemma find_step (f : Z → Z) (n : nat) r :
  f 0 <= r < f (Z.of_nat n) →
  ∃ i, 0 <= i < Z.of_nat n ∧ f i <= r < f (i + 1).
Proof.
  induction n as [|n IH]; intros Hr.
  { change (Z.of_nat 0) with 0 in Hr. lia. }
  destruct (Z.lt_ge_cases r (f (Z.of_nat n))) as [Hlt|Hge].
  - destruct IH as (i & Hi & Hstep); [lia|]. exists i. split; [lia|done].
  - exists (Z.of_nat n). split; [lia|].
    replace (Z.of_nat n + 1) with (Z.of_nat (S n)) by lia. lia.
Qed.

Section RowPartition.

(** [H] rows, an [int] that is not negative, for [T] workers. *)
Variables T H : Z.
Hypothesis rows_int : 0 <= H <= max_signed.
Hypothesis workers_pos : 0 < T.

Lemma band_start_0 : band_start T H 0 = 0.
Proof using rows_int workers_pos.
  unfold band_start. pose proof (Z.mod_pos_bound H T workers_pos). lia.
Qed.

Lemma band_start_last : band_start T H T = H.
Proof using rows_int workers_pos.
  unfold band_start.
  pose proof (Z.mod_pos_bound H T workers_pos). pose proof (Z.div_mod H T).
  lia.
Qed.

Lemma band_start_succ i :
  band_start T H (i + 1) = band_start T H i + band_rows T H i.
Proof using rows_int workers_pos.
  unfold band_start, band_rows. destruct (Z.ltb_spec i (H mod T)); lia.
Qed.

Lemma band_start_mono i j :
  0 <= i <= j → band_start T H i <= band_start T H j.
Proof using rows_int workers_pos.
  intros Hij. unfold band_start.
  assert (0 <= H / T) by (apply Z.div_pos; lia). nia.
Qed.

(** A band lies between the start of the first and the end of the last. *)
Lemma band_inside i :
  0 <= i < T →
  0 <= band_start T H i ∧ band_start T H i + band_rows T H i - 1 < H.
Proof using rows_int workers_pos.
  intros Hi.
  pose proof (band_start_mono 0 i) as H0.
  pose proof (band_start_mono (i + 1) T) as H1.
  rewrite band_start_0 in H0. rewrite band_start_last, band_start_succ in H1.
  lia.
Qed.

(** The band of worker [i], in closed form. *)
Lemma row_bands_lookup i :
  0 <= i < T →
  row_bands T H !! Z.to_nat i =
    Some (band_start T H i, band_start T H i + band_rows T H i - 1).
Proof using rows_int workers_pos.
  intros Hi. unfold row_bands.
  rewrite Z.rem_mod_nonneg, Z.quot_div_nonneg by lia.
  pose proof (Z.mod_pos_bound H T workers_pos) as Hm.
  pose proof (Z.div_mod H T) as Hdm.
  assert (0 <= H / T <= H) as Hq.
  { split; [apply Z.div_pos; lia|]. apply Z.div_le_upper_bound; nia. }
  pose proof rows_int as HH. rewrite max_signed_eq in HH.
  rewrite to_unsigned_small by (rewrite modulus_eq; lia).
  rewrite assign_rows_lookup
    by (try lia; rewrite Z2Nat.id, max_signed_eq by lia; nia).
  rewrite Z2Nat.id by lia. unfold band_start, band_rows.
  f_equal. f_equal; lia.
Qed.

Lemma row_bands_lookup_nat (i : nat) b :
  row_bands T H !! i = Some b →
  0 <= Z.of_nat i < T ∧
  b = (band_start T H (Z.of_nat i),
       band_start T H (Z.of_nat i) + band_rows T H (Z.of_nat i) - 1).
Proof using rows_int workers_pos.
  intros Hb.
  assert (0 <= Z.of_nat i < T) as Hi.
  { apply lookup_lt_Some in Hb. rewrite row_bands_length in Hb. lia. }
  split; [done|].
  rewrite <- (Nat2Z.id i), row_bands_lookup in Hb by done. congruence.
Qed.

Lemma row_bands_covers : covers (row_bands T H) H.
Proof using rows_int workers_pos.
  split.
  - intros b r Hb Hr. apply list_elem_of_lookup in Hb as [i Hb].
    apply row_bands_lookup_nat in Hb as [Hi ->].
    unfold in_band in Hr. simpl in Hr.
    pose proof (band_inside (Z.of_nat i) Hi). lia.
  - intros r Hr.
    destruct (find_step (band_start T H) (Z.to_nat T) r) as (i & Hi & Hstep).
    { rewrite Z2Nat.id, band_start_0, band_start_last by lia. done. }
    exists (band_start T H i, band_start T H i + band_rows T H i - 1). split.
    + apply list_elem_of_lookup. exists (Z.to_nat i).
      apply row_bands_lookup; lia.
    + unfold in_band. simpl. rewrite band_start_succ in Hstep. lia.
Qed.

Lemma row_bands_disjoint : disjoint_bands (row_bands T H).
Proof using rows_int workers_pos.
  intros i j bi bj r Hbi Hbj Hri Hrj.
  apply row_bands_lookup_nat in Hbi as [Hi ->].
  apply row_bands_lookup_nat in Hbj as [Hj ->].
  unfold in_band in *. simpl in *.
  destruct (Nat.lt_trichotomy i j) as [Hlt|[Heq|Hgt]]; [|done|].
  - pose proof (band_start_mono (Z.of_nat i + 1) (Z.of_nat j)) as Hm.
    rewrite band_start_succ in Hm. lia.
  - pose proof (band_start_mono (Z.of_nat j + 1) (Z.of_nat i)) as Hm.
    rewrite band_start_succ in Hm. lia.
Qed.

End RowPartition.

Lemma row_bands_nonempty T H : 0 < T → row_bands T H ≠ [].
Proof.
  intros HT Hnil. apply (f_equal length) in Hnil.
  rewrite row_bands_length in Hnil. simpl in Hnil. lia.
Qed.

(** * The claims *)

(** ** C4: the toroidal index *)

(** C4, as stated, fails: on a 70000 by 70000 grid the index of the cell
    in column 0 of row 69999, a cell of the grid, is not row * W + col,
    because the 32-bit product row * num_cols wraps. *)
Lemma translate_to_1D_wraps :
  0 < 70000 ∧ - 70000 <= 0 < 2 * 70000 ∧ - 70000 <= 69999 < 2 * 70000 ∧
  translate_to_1D 0 69999 70000 70000 = 604962704 ∧
  wrap_once 69999 70000 * 70000 + wrap_once 0 70000 = 4899930000 ∧
  translate_to_1D 0 69999 70000 70000
    ≠ wrap_once 69999 70000 * 70000 + wrap_once 0 70000.
Proof. repeat split; try lia; by vm_compute. Qed.

(** C4, amended: when W and H are positive [int] values whose product is
    at most 2^32, and col and row are [int] values within one width and
    one height of the grid, the result of [translate_to_1D] lies in
    [0, W*H) and is row' * W + col', with col' and row' the coordinates
    shifted once into range; the indices of column -1 and of column W - 1
    of row 0 agree, and so do those of column W and of column 0. *)
Theorem translate_to_1D_wraps_once col row W H :
  0 < W <= max_signed → 0 < H <= max_signed → W * H <= modulus →
  - W <= col < 2 * W → - H <= row < 2 * H → is_int col → is_int row →
  0 <= translate_to_1D col row W H < W * H ∧
  translate_to_1D col row W H = wrap_once row H * W + wrap_once col W ∧
  translate_to_1D (-1) 0 W H = translate_to_1D (W - 1) 0 W H ∧
  translate_to_1D W 0 W H = translate_to_1D 0 0 W H.
Proof.
  intros HW HH HWH Hc Hr Hic Hir.
  assert (is_int (-1) ∧ is_int 0 ∧ is_int W ∧ is_int (W - 1))
    as (? & ? & ? & ?).
  { unfold is_int. rewrite min_signed_eq. rewrite max_signed_eq in *. lia. }
  rewrite !translate_to_1D_index by (done || lia).
  split; [apply index_range; lia|]. split; [done|].
  unfold index, wrap_once.
  repeat match goal with
         | |- context [?a <? ?b] => destruct (Z.ltb_spec a b); try lia
         | |- context [?a >=? ?b] => destruct (Z.geb_spec a b); try lia
         end.
Qed.

Lemma translate_to_1D_wraps_once_witness :
  0 <= translate_to_1D (-1) 5 5 5 < 5 * 5 ∧
  translate_to_1D (-1) 5 5 5 = wrap_once 5 5 * 5 + wrap_once (-1) 5 ∧
  translate_to_1D (-1) 0 5 5 = translate_to_1D (5 - 1) 0 5 5 ∧
  translate_to_1D 5 0 5 5 = translate_to_1D 0 0 5 5.
Proof.
  apply (translate_to_1D_wraps_once (-1) 5 5 5);
    unfold is_int; rewrite ?max_signed_eq, ?min_signed_eq, ?modulus_eq; lia.
Defined.

(** ** C1: the rule *)

(** C1: on a grid, for a cell (x, y) whose entry in [next] still is its
    previous state (its entry in [curr]), [update_cell] returns, and the
    entry of the cell in [next] is then what the B3/S23 rule makes of the
    previous state and of the count n of live neighbours in [curr]: a
    live cell with n < 2 or n > 3 is dead, a live cell with n = 2 or
    n = 3 is alive, a dead cell with n = 3 is alive, and any other dead
    cell keeps its value, so is dead. *)
Theorem update_cell_life_rule m curr next c w x y W H :
  grid_dims W H → in_grid x y W H →
  heap m !! curr = Some c → Z.of_nat (length c) = W * H →
  heap m !! next = Some w → Z.of_nat (length w) = W * H →
  w !! Z.to_nat (translate_to_1D x y W H)
    = c !! Z.to_nat (translate_to_1D x y W H) →
  ∃ m' n v w' v',
    update_cell m curr next x y W H = Some m' ∧
    count_live_neighbors m curr x y W H = Some n ∧
    c !! Z.to_nat (translate_to_1D x y W H) = Some v ∧
    heap m' !! next = Some w' ∧
    w' !! Z.to_nat (translate_to_1D x y W H) = Some v' ∧
    alive v' = life_rule (alive v) n ∧
    (v = ALIVE → n < 2 ∨ n > 3 → v' = DEAD) ∧
    (v = ALIVE → n = 2 ∨ n = 3 → v' = ALIVE) ∧
    (v ≠ ALIVE → n = 3 → v' = ALIVE) ∧
    (v ≠ ALIVE → n ≠ 3 → v' = v).
Proof.
  intros Hd Hin Hc Hlc Hw Hlw Hsame.
  destruct (translate_cell x y W H Hd Hin) as [Htr Hi]. rewrite Htr in *.
  destruct (lookup_in_bounds c (index x y W H)) as [v Hv]; [lia|].
  exists (cell_updated m next c w x y W H), (live_neighbors c x y W H), v.
  exists (<[Z.to_nat (index x y W H) := next_value c w x y W H]> w).
  exists (next_value c w x y W H).
  split; [by apply update_cell_grid|].
  split; [eauto using count_live_neighbors_heap, neighbors_in_bounds_grid|].
  split; [done|].
  split; [unfold cell_updated; simpl; by rewrite lookup_insert_eq|].
  split; [apply list_lookup_insert_eq; lia|].
  unfold next_value, alive_at, life_rule, alive, ALIVE, DEAD.
  rewrite Hsame, Hv. simpl. set (n := live_neighbors c x y W H).
  destruct (Z.eqb_spec v 1) as [->|Hv1]; simpl;
    destruct (Z.ltb_spec n 2); destruct (Z.gtb_spec n 3);
    destruct (Z.eqb_spec n 3); simpl;
    try destruct (Z.eqb_spec v 1); repeat split; intros; try lia; done.
Qed.

Lemma update_cell_life_rule_witness :
  ∃ m' n v w' v',
    update_cell blinker_machine 2 1 2 1 5 5 = Some m' ∧
    count_live_neighbors blinker_machine 2 2 1 5 5 = Some n ∧
    blinker !! Z.to_nat (translate_to_1D 2 1 5 5) = Some v ∧
    heap m' !! 1%positive = Some w' ∧
    w' !! Z.to_nat (translate_to_1D 2 1 5 5) = Some v' ∧
    alive v' = life_rule (alive v) n ∧
    (v = ALIVE → n < 2 ∨ n > 3 → v' = DEAD) ∧
    (v = ALIVE → n = 2 ∨ n = 3 → v' = ALIVE) ∧
    (v ≠ ALIVE → n = 3 → v' = ALIVE) ∧
    (v ≠ ALIVE → n ≠ 3 → v' = v).
Proof.
  apply (update_cell_life_rule blinker_machine 2 1 blinker blinker 2 1 5 5);
    [unfold grid_dims; rewrite max_signed_eq; lia | unfold in_grid; lia
    | reflexivity | reflexivity | reflexivity | reflexivity | reflexivity].
Defined.

(** X4: a turn is one synchronous generation: after the snapshot and
    the computing phase of any covering list of bands, every cell of the
    live grid is what the rule makes of its state and of its count of
    live neighbours before the turn; no cell sees a neighbour that has
    been updated already. *)
Lemma turn_life_rule turns wld copy W H bands m w c x y :
  wld ≠ copy → is_grid m wld W H w → is_grid m copy W H c →
  bands ≠ [] → covers bands H → in_grid x y W H →
  ∃ m' w' v n v',
    turn (thread_data turns wld W H copy bands) m = Some m' ∧
    heap m' !! wld = Some w' ∧
    w !! Z.to_nat (translate_to_1D x y W H) = Some v ∧
    count_live_neighbors m wld x y W H = Some n ∧
    w' !! Z.to_nat (translate_to_1D x y W H) = Some v' ∧
    alive v' = life_rule (alive v) n.
Proof.
  intros Hne (Hd & Hw & Hlw) (_ & Hc & Hlc) Hbands Hcov Hin.
  pose proof Hd as (HW & HH & _).
  destruct (translate_cell x y W H Hd Hin) as [-> Hi].
  destruct (lookup_in_bounds w (index x y W H)) as [v Hv]; [lia|].
  eexists _, _, v, (live_neighbors w x y W H), (next_value w w x y W H).
  split; [by apply (turn_grid turns wld copy W H bands m w c)|].
  split; [simpl; by rewrite lookup_insert_eq|]. split; [done|].
  split; [eauto using count_live_neighbors_heap, neighbors_in_bounds_grid|].
  split.
  - unfold next_generation. apply update_cells_lookup_in; try done.
    + apply band_cells_in_grid; lia.
    + apply elem_of_band_cells. destruct Hin. lia.
  - unfold next_value, alive_at, life_rule, alive, ALIVE. rewrite Hv. simpl.
    set (n := live_neighbors w x y W H).
    destruct (Z.eqb_spec v 1) as [->|Hv1]; simpl;
      destruct (Z.ltb_spec n 2); destruct (Z.gtb_spec n 3);
      destruct (Z.eqb_spec n 3); simpl;
      try destruct (Z.eqb_spec v 1); try lia; done.
Qed.

(** ** C7: the neighbour count *)

Lemma wrap_once_neighbor c d n :
  2 <= n → 0 <= c < n → -1 <= d <= 1 → wrap_once (c + d) n = c → d = 0.
Proof.
  intros Hn Hc Hd. unfold wrap_once.
  destruct (Z.ltb_spec (c + d) 0); [lia|].
  destruct (Z.geb_spec (c + d) n); lia.
Qed.

(** On a grid at least two cells wide and high no neighbour of a cell has
    the index of the cell. *)
Lemma neighbor_index_ne x y dx dy W H :
  2 <= W → 2 <= H → in_grid x y W H →
  -1 <= dx <= 1 → -1 <= dy <= 1 → dx ≠ 0 ∨ dy ≠ 0 →
  index (x + dx) (y + dy) W H ≠ index x y W H.
Proof.
  intros HW HH [Hx Hy] Hdx Hdy Hd Heq.
  pose proof (wrap_once_range (x + dx) W) as Hcx.
  pose proof (wrap_once_range (y + dy) H) as Hcy.
  rewrite (index_in_range x y) in Heq by done. unfold index in Heq.
  assert (wrap_once (y + dy) H = y) as Hy' by nia.
  assert (wrap_once (x + dx) W = x) as Hx' by nia.
  apply wrap_once_neighbor in Hx'; try lia.
  apply wrap_once_neighbor in Hy'; lia.
Qed.

Lemma neighbor_index_nat_ne x y dx dy W H :
  2 <= W → 2 <= H → in_grid x y W H →
  -1 <= dx <= 1 → -1 <= dy <= 1 → dx ≠ 0 ∨ dy ≠ 0 →
  Z.to_nat (index (x + dx) (y + dy) W H) ≠ Z.to_nat (index x y W H).
Proof.
  intros HW HH Hin Hdx Hdy Hd.
  pose proof (neighbor_index_ne x y dx dy W H HW HH Hin Hdx Hdy Hd).
  destruct Hin.
  pose proof (index_range (x + dx) (y + dy) W H).
  pose proof (index_range x y W H). lia.
Qed.

Lemma alive_at_insert_ne (w : list Z) i j v :
  Z.to_nat i ≠ j → alive_at (<[j := v]> w) i = alive_at w i.
Proof.
  intros Hne. unfold alive_at. by rewrite list_lookup_insert_ne.
Qed.

Lemma live_neighbors_insert_center w x y W H v :
  grid_dims W H → 2 <= W → 2 <= H → in_grid x y W H →
  live_neighbors (<[Z.to_nat (index x y W H) := v]> w) x y W H
    = live_neighbors w x y W H.
Proof.
  intros Hd HW HH Hin. unfold live_neighbors. rewrite !length_filter_b2z.
  unfold moore_offsets. simpl.
  repeat match goal with
         | |- context [translate_to_1D (x + ?dx) (y + ?dy) W H] =>
             destruct (translate_neighbor x y dx dy W H Hd Hin) as [-> ?];
             [lia|lia|]
         end.
  rewrite !alive_at_insert_ne; [done|..];
    apply neighbor_index_nat_ne; (done || lia).
Qed.

(** C7, as stated, fails: on the grid of one cell all eight neighbours of
    the cell are the cell itself, which is counted eight times when it is
    alive; the count depends on the state of the centre. *)
Lemma count_live_neighbors_counts_center :
  grid_dims 1 1 ∧ in_grid 0 0 1 1 ∧
  count_live_neighbors one_cell_machine 1 0 0 1 1 = Some 8 ∧
  ¬ center_not_counted one_cell_machine 1 0 0 1 1.
Proof.
  split; [unfold grid_dims; rewrite max_signed_eq; lia|].
  split; [unfold in_grid; lia|]. split; [reflexivity|].
  intros Hc. specialize (Hc 0 _ eq_refl). vm_compute in Hc. discriminate.
Qed.

(** C7, amended: for every grid and every cell (x, y) of it,
    [count_live_neighbors] returns a value in [0, 8], the number of the
    eight offsets (dx, dy) other than (0, 0), with dx and dy in
    {-1, 0, 1}, for which the cell at the toroidal index of
    (x + dx, y + dy) is alive; the offset (0, 0) is skipped, and when the
    grid is at least two cells wide and two cells high the state of the
    centre cell has no influence on the count. *)
Theorem count_live_neighbors_moore m wld w x y W H :
  is_grid m wld W H w → in_grid x y W H →
  ∃ n,
    count_live_neighbors m wld x y W H = Some n ∧
    0 <= n <= 8 ∧
    n = Z.of_nat (length (filter
          (λ d, w !! Z.to_nat (translate_to_1D (x + d.1) (y + d.2) W H)
                  = Some ALIVE)
          [(-1, -1); (-1, 0); (-1, 1); (0, -1); (0, 1); (1, -1); (1, 0); (1, 1)])) ∧
    (2 <= W → 2 <= H → center_not_counted m wld x y W H).
Proof.
  intros (Hd & Hw & Hlw) Hin. exists (live_neighbors w x y W H).
  assert (neighbors_in_bounds w x y W H) as Hb
    by by apply neighbors_in_bounds_grid.
  split; [by apply count_live_neighbors_heap|].
  split; [apply live_neighbors_range|]. split.
  - unfold live_neighbors. fold moore_offsets. do 2 f_equal.
    apply list_filter_iff. intros [dx dy]. simpl. unfold alive_at, alive, ALIVE.
    destruct (w !! Z.to_nat (translate_to_1D (x + dx) (y + dy) W H)) as [v|];
      [|done].
    destruct (Z.eqb_spec v 1); split; congruence.
  - intros HW HH v m' Hst.
    destruct (translate_cell x y W H Hd Hin) as [Htr Hi]. rewrite Htr in Hst.
    rewrite (store_heap m wld w) in Hst by (done || lia).
    injection Hst as <-.
    rewrite (count_live_neighbors_heap _ wld
               (<[Z.to_nat (index x y W H) := v]> w)); simpl.
    + rewrite (count_live_neighbors_heap m wld w) by done.
      by rewrite live_neighbors_insert_center.
    + by rewrite lookup_insert_eq.
    + apply neighbors_in_bounds_grid; try done. by rewrite length_insert.
Qed.

Lemma count_live_neighbors_moore_witness :
  ∃ n,
    count_live_neighbors blinker_machine 1 2 2 5 5 = Some n ∧
    0 <= n <= 8 ∧
    n = Z.of_nat (length (filter
          (λ d, blinker !! Z.to_nat (translate_to_1D (2 + d.1) (2 + d.2) 5 5)
                  = Some ALIVE)
          [(-1, -1); (-1, 0); (-1, 1); (0, -1); (0, 1); (1, -1); (1, 0); (1, 1)])) ∧
    (2 <= 5 → 2 <= 5 → center_not_counted blinker_machine 1 2 2 5 5).
Proof.
  apply (count_live_neighbors_moore blinker_machine 1 blinker 2 2 5 5);
    [ split; [unfold grid_dims; rewrite max_signed_eq; lia | split; reflexivity]
    | unfold in_grid; lia ].
Defined.

(** ** C10: what a call of [update_cell] leaves alone *)

Lemma store_inv m p i v m' :
  store m p i v = Some m' →
  ∃ l, heap m !! p = Some l ∧ 0 <= i < Z.of_nat (length l) ∧
       m' = Machine (<[p := <[Z.to_nat i := v]> l]> (heap m))
                    (writes m ++ [(p, i)]).
Proof.
  unfold store. intros Hst. destruct (heap m !! p) as [l|]; [|done].
  simpl in Hst. case_bool_decide; [|done]. injection Hst as <-. eauto.
Qed.

Lemma new_writes_refl m : new_writes m m = [].
Proof. unfold new_writes. apply drop_all. Qed.

Lemma new_writes_app m h ws : new_writes m (Machine h (writes m ++ ws)) = ws.
Proof. unfold new_writes. simpl. by rewrite drop_app_length. Qed.

(** The effect of one store, seen from outside. *)
Lemma store_frame m p i v m' :
  store m p i v = Some m' →
  (∀ q, q ≠ p → heap m' !! q = heap m !! q) ∧
  (∃ l, heap m !! p = Some l ∧
        heap m' !! p = Some (<[Z.to_nat i := v]> l) ∧
        0 <= i < Z.of_nat (length l)) ∧
  new_writes m m' = [(p, i)].
Proof.
  intros Hst. apply store_inv in Hst as (l & Hl & Hi & ->). simpl.
  split; [intros q Hq; by rewrite lookup_insert_ne|].
  split; [exists l; by rewrite lookup_insert_eq|].
  apply new_writes_app.
Qed.

(** C10: a call of [update_cell] that returns changes no block other
    than [next], so leaves the grid [curr], a block of its own,
    untouched; in [next] it changes at most the entry at the index of
    (x, y), and it logs no store or one store, at that index.  When the
    cell is alive in [curr] with two live neighbours, or not alive with a
    count other than three, nothing is stored and the machine is as
    before, so [next] keeps its entry; a live cell with three live
    neighbours is stored again as alive. *)
Theorem update_cell_frame m curr next x y W H m' :
  update_cell m curr next x y W H = Some m' →
  let i := translate_to_1D x y (to_unsigned W) (to_unsigned H) in
  (curr ≠ next → heap m' !! curr = heap m !! curr) ∧
  (∀ p, p ≠ next → heap m' !! p = heap m !! p) ∧
  (∀ w, heap m !! next = Some w →
        ∃ w', heap m' !! next = Some w' ∧ length w' = length w ∧
              ∀ j, j ≠ Z.to_nat i → w' !! j = w !! j) ∧
  (new_writes m m' = [] ∨ new_writes m m' = [(next, i)]) ∧
  (∃ v n,
     load m curr i = Some v ∧
     count_live_neighbors m curr x y (to_unsigned W) (to_unsigned H) = Some n ∧
     ((v = ALIVE ∧ n = 2) ∨ (v ≠ ALIVE ∧ n ≠ 3) →
        new_writes m m' = [] ∧ m' = m) ∧
     (v = ALIVE ∧ n = 3 →
        new_writes m m' = [(next, i)] ∧
        ∃ w', heap m' !! next = Some w' ∧ w' !! Z.to_nat i = Some ALIVE)).
Proof.
  unfold update_cell. intros Hup.
  set (i := translate_to_1D x y (to_unsigned W) (to_unsigned H)) in *.
  destruct (count_live_neighbors m curr x y _ _) as [n|]; [|done].
  simpl in Hup. destruct (load m curr i) as [v|]; [|done]. simpl in Hup.
  assert (m' = m ∨ ∃ b, store m next i b = Some m') as [->|[b Hst]].
  { destruct ((v =? 1) && ((n <? 2) || (n >? 3))); [eauto|].
    destruct (n =? 3); [eauto|]. left. congruence. }
  - split; [done|]. split; [done|]. split.
    { intros w Hw. exists w. eauto. }
    split; [left; apply new_writes_refl|].
    exists v, n. split; [done|]. split; [done|].
    split; [intros _; split; [apply new_writes_refl|done]|].
    intros [-> ->]. simpl in Hup.
    apply store_frame in Hup as (_ & _ & Hlog).
    rewrite new_writes_refl in Hlog. done.
  - pose proof Hst as Hst'.
    apply store_frame in Hst' as (Hother & (l & Hl & Hl' & Hi) & Hlog).
    split; [intros Hne; by apply Hother|]. split; [done|]. split.
    { intros w Hw. rewrite Hl in Hw. injection Hw as <-.
      exists (<[Z.to_nat i := b]> l). split; [done|].
      split; [apply length_insert|].
      intros j Hj. by apply list_lookup_insert_ne. }
    split; [by right|].
    exists v, n. split; [done|]. split; [done|]. split.
    + intros Hcase. exfalso. unfold ALIVE in Hcase.
      assert ((v =? 1) && ((n <? 2) || (n >? 3)) = false ∧ (n =? 3) = false)
        as [Hdie Hborn].
      { destruct Hcase as [[-> ->]|[Hv Hn]]; [done|].
        destruct (Z.eqb_spec v 1); [done|].
        destruct (Z.eqb_spec n 3); done. }
      rewrite Hdie, Hborn in Hup. injection Hup as <-.
      rewrite new_writes_refl in Hlog. done.
    + intros [-> ->]. simpl in Hup. split; [done|].
      apply store_inv in Hup as (l' & Hl'' & _ & ->). simpl.
      rewrite Hl in Hl''. injection Hl'' as <-.
      exists (<[Z.to_nat i := 1]> l). rewrite lookup_insert_eq.
      split; [done|]. apply list_lookup_insert_eq. lia.
Qed.

Lemma update_cell_frame_witness :
  let m' := Machine {[1%positive := <[7%nat := 0]> blinker;
                      2%positive := blinker]} [(1%positive, 7)] in
  let i := translate_to_1D 2 1 (to_unsigned 5) (to_unsigned 5) in
  (2%positive ≠ 1%positive → heap m' !! 2%positive = heap blinker_machine !! 2%positive) ∧
  (∀ p, p ≠ 1%positive → heap m' !! p = heap blinker_machine !! p) ∧
  (∀ w, heap blinker_machine !! 1%positive = Some w →
        ∃ w', heap m' !! 1%positive = Some w' ∧ length w' = length w ∧
              ∀ j, j ≠ Z.to_nat i → w' !! j = w !! j) ∧
  (new_writes blinker_machine m' = [] ∨
   new_writes blinker_machine m' = [(1%positive, i)]) ∧
  (∃ v n,
     load blinker_machine 2 i = Some v ∧
     count_live_neighbors blinker_machine 2 2 1 (to_unsigned 5) (to_unsigned 5)
       = Some n ∧
     ((v = ALIVE ∧ n = 2) ∨ (v ≠ ALIVE ∧ n ≠ 3) →
        new_writes blinker_machine m' = [] ∧ m' = blinker_machine) ∧
     (v = ALIVE ∧ n = 3 →
        new_writes blinker_machine m' = [(1%positive, i)] ∧
        ∃ w', heap m' !! 1%positive = Some w' ∧ w' !! Z.to_nat i = Some ALIVE)).
Proof.
  apply (update_cell_frame blinker_machine 2 1 2 1 5 5). by vm_compute.
Defined.

(** ** C2: the row bands *)

Lemma band_size_rows T H i :
  band_size (band_start T H i, band_start T H i + band_rows T H i - 1)
    = band_rows T H i.
Proof. unfold band_size. simpl. lia. Qed.

(** C2: for H >= 1 rows and T >= 1 workers, both [int] values,
    [run_threads] makes T bands; they stay inside the rows 0..H-1 and
    leave none out, no row lies in two of them, the first starts at row
    0, each next one starts right after the one before, the last ends at
    row H - 1; the band of worker i has H div T + 1 rows when
    i < H mod T and H div T rows otherwise, so two bands differ by at
    most one row and the larger ones come first. *)
Theorem row_bands_partition T H :
  1 <= H <= max_signed → 1 <= T <= max_signed →
  let bands := row_bands T H in
  let base := H / T in
  let remainder := H mod T in
  length bands = Z.to_nat T ∧
  covers bands H ∧
  disjoint_bands bands ∧
  (∀ b, bands !! 0%nat = Some b → b.1 = 0) ∧
  (∀ i b b', bands !! i = Some b → bands !! S i = Some b' → b'.1 = b.2 + 1) ∧
  (∀ b, last bands = Some b → b.2 = H - 1) ∧
  (∀ i b, bands !! i = Some b →
          band_size b = if Z.of_nat i <? remainder then base + 1 else base) ∧
  (∀ i j bi bj, bands !! i = Some bi → bands !! j = Some bj →
                -1 <= band_size bi - band_size bj <= 1).
Proof.
  intros HH HT bands base remainder.
  assert (0 <= H <= max_signed) as HH' by lia.
  assert (0 < T) as HT' by lia.
  assert (∀ i b, bands !! i = Some b →
            band_size b = if Z.of_nat i <? remainder then base + 1 else base)
    as Hsize.
  { intros i b Hb. apply row_bands_lookup_nat in Hb as [Hi ->]; try done.
    rewrite band_size_rows. unfold band_rows. fold remainder base.
    destruct (Z.of_nat i <? remainder); lia. }
  split; [apply row_bands_length|].
  split; [by apply row_bands_covers|].
  split; [by apply row_bands_disjoint|].
  split; [|split; [|split; [|split; [done|]]]].
  - intros b Hb. apply row_bands_lookup_nat in Hb as [_ ->]; try done.
    simpl. apply band_start_0; lia.
  - intros i b b' Hb Hb'.
    apply row_bands_lookup_nat in Hb as [_ ->]; try done.
    apply row_bands_lookup_nat in Hb' as [_ ->]; try done. simpl.
    replace (Z.of_nat (S i)) with (Z.of_nat i + 1) by lia.
    rewrite band_start_succ by done. lia.
  - intros b Hb. rewrite last_lookup in Hb. unfold bands in Hb.
    rewrite row_bands_length in Hb.
    apply row_bands_lookup_nat in Hb as [_ ->]; try done. simpl.
    pose proof (band_start_succ T H HH' HT' (Z.of_nat (pred (Z.to_nat T)))) as Hs.
    replace (Z.of_nat (pred (Z.to_nat T)) + 1) with T in Hs by lia.
    rewrite band_start_last in Hs by lia. lia.
  - intros i j bi bj Hbi Hbj.
    rewrite (Hsize i bi Hbi), (Hsize j bj Hbj).
    destruct (Z.of_nat i <? remainder), (Z.of_nat j <? remainder); lia.
Qed.

Lemma row_bands_partition_witness :
  let bands := row_bands 3 10 in
  let base := 10 / 3 in
  let remainder := 10 mod 3 in
  length bands = Z.to_nat 3 ∧
  covers bands 10 ∧
  disjoint_bands bands ∧
  (∀ b, bands !! 0%nat = Some b → b.1 = 0) ∧
  (∀ i b b', bands !! i = Some b → bands !! S i = Some b' → b'.1 = b.2 + 1) ∧
  (∀ b, last bands = Some b → b.2 = 10 - 1) ∧
  (∀ i b, bands !! i = Some b →
          band_size b = if Z.of_nat i <? remainder then base + 1 else base) ∧
  (∀ i j bi bj, bands !! i = Some bi → bands !! j = Some bj →
                -1 <= band_size bi - band_size bj <= 1).
Proof.
  apply (row_bands_partition 3 10); rewrite max_signed_eq; lia.
Defined.

(** ** C5: the stores of a band *)

Lemma update_world_grid m wld copy W H w c s e :
  wld ≠ copy → grid_dims W H →
  heap m !! copy = Some c → Z.of_nat (length c) = W * H →
  heap m !! wld = Some w → Z.of_nat (length w) = W * H →
  0 <= s → e < H →
  update_world m wld copy W H s e =
    Some (Machine (<[wld := update_cells c (band_cells W s e) w W H]> (heap m))
                  (writes m ++ cells_writes wld c (band_cells W s e) W H)).
Proof.
  intros Hne Hd Hc Hlc Hw Hlw Hs He. rewrite update_world_band_cells.
  apply for_each_update_cell; try done. by apply band_cells_in_grid.
Qed.

Lemma elem_of_cells_writes next c cells W H p i :
  (p, i) ∈ cells_writes next c cells W H →
  p = next ∧ ∃ y x, (y, x) ∈ cells ∧ i = index x y W H.
Proof.
  unfold cells_writes. rewrite list_elem_of_bind.
  intros ([y x] & Hel & Hcell).
  destruct (cell_written c x y W H); [|by apply elem_of_nil in Hel].
  apply list_elem_of_singleton in Hel as [= -> ->]. eauto.
Qed.

(** The stores of [update_world] on a band inside the grid go to the
    live grid, at indices of cells of the rows of the band. *)
Lemma update_world_writes m wld copy W H w c s e :
  wld ≠ copy → is_grid m wld W H w →
  heap m !! copy = Some c → Z.of_nat (length c) = W * H →
  0 <= s → e < H →
  ∃ m',
    update_world m wld copy W H s e = Some m' ∧
    ∀ p i, (p, i) ∈ new_writes m m' →
           p = wld ∧ ∃ y x, s <= y <= e ∧ 0 <= x < W ∧ i = y * W + x.
Proof.
  intros Hne (Hd & Hw & Hlw) Hc Hlc Hs He. eexists.
  split; [by apply (update_world_grid m wld copy W H w c)|].
  intros p i. rewrite new_writes_app. intros Hel.
  apply elem_of_cells_writes in Hel as [-> (y & x & Hcell & ->)].
  apply elem_of_band_cells in Hcell. split; [done|]. exists y, x.
  rewrite index_in_range by lia. tauto.
Qed.

(** C5: in a computing phase the stores of [update_world] for the band
    of a worker go to the live grid at indices y * W + x with y a row of
    the band and x a column; the stores of two distinct workers of the
    partition, each started on the grid with its snapshot, have no index
    in common. *)
Theorem update_world_writes_disjoint T H W wld copy i j bi bj mi mj wi wj ci cj :
  1 <= T <= max_signed →
  row_bands T H !! i = Some bi → row_bands T H !! j = Some bj → i ≠ j →
  wld ≠ copy →
  is_grid mi wld W H wi → is_grid mi copy W H ci →
  is_grid mj wld W H wj → is_grid mj copy W H cj →
  ∃ mi' mj',
    update_world mi wld copy W H bi.1 bi.2 = Some mi' ∧
    update_world mj wld copy W H bj.1 bj.2 = Some mj' ∧
    (∀ p k, (p, k) ∈ new_writes mi mi' →
            p = wld ∧ ∃ y x, bi.1 <= y <= bi.2 ∧ 0 <= x < W ∧ k = y * W + x) ∧
    (∀ p k, (p, k) ∈ new_writes mj mj' →
            p = wld ∧ ∃ y x, bj.1 <= y <= bj.2 ∧ 0 <= x < W ∧ k = y * W + x) ∧
    (∀ p k, (p, k) ∈ new_writes mi mi' → (p, k) ∉ new_writes mj mj').
Proof.
  intros HT Hbi Hbj Hij Hne Hwi (_ & Hci & Hlci) Hwj (_ & Hcj & Hlcj).
  pose proof Hwi as ((HW & HH & HWH) & _).
  assert (0 <= H <= max_signed) as HH'.
  { rewrite max_signed_eq in *. nia. }
  assert (0 < T) as HT' by lia.
  pose proof (row_bands_disjoint T H HH' HT') as Hdisj.
  pose proof (row_bands_lookup_nat T H HH' HT' i bi Hbi) as [Hi Ebi].
  pose proof (row_bands_lookup_nat T H HH' HT' j bj Hbj) as [Hj Ebj].
  assert (0 <= bi.1 ∧ bi.2 < H ∧ 0 <= bj.1 ∧ bj.2 < H) as (? & ? & ? & ?).
  { pose proof (band_inside T H HH' HT' (Z.of_nat i) Hi).
    pose proof (band_inside T H HH' HT' (Z.of_nat j) Hj).
    subst bi bj. simpl. lia. }
  destruct (update_world_writes mi wld copy W H wi ci bi.1 bi.2)
    as (mi' & Hri & Hwri); try done.
  destruct (update_world_writes mj wld copy W H wj cj bj.1 bj.2)
    as (mj' & Hrj & Hwrj); try done.
  exists mi', mj'. split; [done|]. split; [done|]. split; [done|].
  split; [done|].
  intros p k Hki Hkj.
  apply Hwri in Hki as [_ (y1 & x1 & Hy1 & Hx1 & ->)].
  apply Hwrj in Hkj as [_ (y2 & x2 & Hy2 & Hx2 & Heq)].
  assert (y1 = y2) as -> by nia.
  apply Hij. by apply (Hdisj i j bi bj y2).
Qed.

Lemma update_world_writes_disjoint_witness :
  ∃ mi' mj',
    update_world blinker_machine 1 2 5 5 (0, 2).1 (0, 2).2 = Some mi' ∧
    update_world blinker_machine 1 2 5 5 (3, 4).1 (3, 4).2 = Some mj' ∧
    (∀ p k, (p, k) ∈ new_writes blinker_machine mi' →
            p = 1%positive ∧
            ∃ y x, (0, 2).1 <= y <= (0, 2).2 ∧ 0 <= x < 5 ∧ k = y * 5 + x) ∧
    (∀ p k, (p, k) ∈ new_writes blinker_machine mj' →
            p = 1%positive ∧
            ∃ y x, (3, 4).1 <= y <= (3, 4).2 ∧ 0 <= x < 5 ∧ k = y * 5 + x) ∧
    (∀ p k, (p, k) ∈ new_writes blinker_machine mi' →
            (p, k) ∉ new_writes blinker_machine mj').
Proof.
  apply (update_world_writes_disjoint 2 5 5 1 2 0 1 (0, 2) (3, 4)
           blinker_machine blinker_machine blinker blinker blinker blinker);
    try reflexivity; try (rewrite max_signed_eq; lia); try lia;
    (split; [unfold grid_dims; rewrite max_signed_eq; lia | split; reflexivity]).
Defined.

(** ** C3: one worker and many *)

(** A computing phase over bands that cover the rows leaves the grid
    that the single band of all the rows leaves. *)
Lemma bands_as_one m wld copy W H w c bands :
  wld ≠ copy → grid_dims W H →
  heap m !! copy = Some c → Z.of_nat (length c) = W * H →
  heap m !! wld = Some w → Z.of_nat (length w) = W * H →
  covers bands H →
  ∃ m' m1,
    for_each bands (λ b m, update_world m wld copy W H b.1 b.2) m = Some m' ∧
    update_world m wld copy W H 0 (H - 1) = Some m1 ∧
    heap m' = heap m1.
Proof.
  intros Hne Hd Hc Hlc Hw Hlw Hcov.
  pose proof Hd as (HW & HH & _). eexists _, _.
  split.
  { rewrite for_each_update_world.
    apply (for_each_update_cell m wld copy c w); try done.
    by apply all_cells_in_grid. }
  split; [apply (update_world_grid m wld copy W H w c); (done || lia)|].
  simpl. by rewrite update_cells_covers.
Qed.

(** The same holds for the calls of [update_cell] of a computing phase
    taken in any order, as the threads may interleave them: what counts
    is that every cell of the grid is visited. *)
Lemma cells_in_any_order m wld copy W H w c cells :
  wld ≠ copy → is_grid m wld W H w → is_grid m copy W H c →
  Forall (λ '(y, x), in_grid x y W H) cells →
  (∀ y x, in_grid x y W H → (y, x) ∈ cells) →
  ∃ m' m1,
    for_each cells (λ '(y, x) m, update_cell m copy wld x y W H) m = Some m' ∧
    update_world m wld copy W H 0 (H - 1) = Some m1 ∧
    heap m' = heap m1.
Proof.
  intros Hne (Hd & Hw & Hlw) (_ & Hc & Hlc) Hin Hall.
  pose proof Hd as (HW & HH & _). eexists _, _.
  split; [by apply (for_each_update_cell m wld copy c w)|].
  split; [apply (update_world_grid m wld copy W H w c); (done || lia)|].
  simpl. f_equal. apply update_cells_same_cells; try done.
  - apply band_cells_in_grid; lia.
  - intros y x. rewrite elem_of_band_cells. split.
    + intros Hel. rewrite Forall_forall in Hin. specialize (Hin _ Hel).
      destruct Hin. lia.
    + intros [Hy Hx]. apply Hall. unfold in_grid. lia.
Qed.

(** C3: for every grid, every number of turns and every number T >= 1
    of workers, the run with one worker and the run with T workers both
    return, and they leave the same heap, so the same final grid, cell
    for cell; within a generation, [update_world] applied to the bands
    of any list of bands that partitions the rows 0..H-1 leaves the grid
    that [update_world] leaves on the single band 0..H-1. *)
Theorem run_threads_sequential_parallel m wld W H w T k junk1 junkT :
  is_grid m wld W H w → 1 <= T <= max_signed →
  (∃ m1 mT g,
     run_threads m 1 k wld W H junk1 = Some m1 ∧
     run_threads m T k wld W H junkT = Some mT ∧
     heap m1 = heap mT ∧
     heap m1 !! wld = Some g ∧ heap mT !! wld = Some g ∧
     Z.of_nat (length g) = W * H) ∧
  (∀ bands m0 copy w0 c0,
     covers bands H → disjoint_bands bands →
     wld ≠ copy → is_grid m0 wld W H w0 → is_grid m0 copy W H c0 →
     ∃ m' m1,
       for_each bands (λ b m, update_world m wld copy W H b.1 b.2) m0
         = Some m' ∧
       update_world m0 wld copy W H 0 (H - 1) = Some m1 ∧
       heap m' = heap m1).
Proof.
  intros Hg HT. pose proof Hg as ((HW & HH & HWH) & Hw & Hlw).
  assert (0 <= H <= max_signed) as HH'.
  { rewrite max_signed_eq in *. nia. }
  split.
  - destruct (run_threads_grid m 1 k wld W H w junk1) as (m1 & Hr1 & Hh1);
      [done|lia|apply row_bands_nonempty; lia|apply row_bands_covers; lia|].
    destruct (run_threads_grid m T k wld W H w junkT) as (mT & HrT & HhT);
      [done|lia|apply row_bands_nonempty; lia|apply row_bands_covers; lia|].
    exists m1, mT, (generations (Z.to_nat k) w W H).
    split; [done|]. split; [done|]. split; [congruence|].
    rewrite Hh1, HhT, !lookup_insert_eq. split; [done|]. split; [done|].
    by rewrite generations_length.
  - intros bands m0 copy w0 c0 Hcov _ Hne (Hd & Hw0 & Hlw0) (_ & Hc0 & Hlc0).
    by apply (bands_as_one m0 wld copy W H w0 c0).
Qed.

Lemma run_threads_sequential_parallel_witness :
  (∃ m1 mT g,
     run_threads blinker_machine 1 3 1 5 5 [] = Some m1 ∧
     run_threads blinker_machine 2 3 1 5 5 [7; 7] = Some mT ∧
     heap m1 = heap mT ∧
     heap m1 !! 1%positive = Some g ∧ heap mT !! 1%positive = Some g ∧
     Z.of_nat (length g) = 5 * 5) ∧
  (∀ bands m0 copy w0 c0,
     covers bands 5 → disjoint_bands bands →
     1%positive ≠ copy → is_grid m0 1 5 5 w0 → is_grid m0 copy 5 5 c0 →
     ∃ m' m1,
       for_each bands (λ b m, update_world m 1 copy 5 5 b.1 b.2) m0
         = Some m' ∧
       update_world m0 1 copy 5 5 0 (5 - 1) = Some m1 ∧
       heap m' = heap m1).
Proof.
  apply (run_threads_sequential_parallel blinker_machine 1 5 5 blinker 2 3
           [] [7; 7]);
    [ split; [unfold grid_dims; rewrite max_signed_eq; lia | split; reflexivity]
    | rewrite max_signed_eq; lia ].
Defined.

(** ** C6: more workers than rows *)

Lemma update_world_empty_band m wld copy W H s e :
  e < s → update_world m wld copy W H s e = Some m.
Proof.
  intros He. unfold update_world. rewrite seqZ_nil by lia. done.
Qed.

(** C6: with H >= 1 rows and T > H workers, each of the first H workers
    has exactly one row, its own number, and every later worker has the
    band that starts at row H and ends at row H - 1, which is empty: on
    it [update_world] returns the machine as it was, with no store.  The
    run with T workers returns, and leaves the heap, so the final grid,
    that the run with H workers leaves. *)
Theorem run_threads_idle_workers m wld W H w T k junkT junkH :
  is_grid m wld W H w → H < T <= max_signed →
  (∀ i, 0 <= i < H → row_bands T H !! Z.to_nat i = Some (i, i)) ∧
  (∀ i, H <= i < T →
     ∃ s e, row_bands T H !! Z.to_nat i = Some (s, e) ∧ s > e ∧
            ∀ m0 copy, update_world m0 wld copy W H s e = Some m0 ∧
                       new_writes m0 m0 = []) ∧
  (∃ mT mH g,
     run_threads m T k wld W H junkT = Some mT ∧
     run_threads m H k wld W H junkH = Some mH ∧
     heap mT = heap mH ∧
     heap mT !! wld = Some g ∧ heap mH !! wld = Some g).
Proof.
  intros Hg HT. pose proof Hg as ((HW & HH & HWH) & Hw & Hlw).
  assert (0 <= H <= max_signed) as HH'.
  { rewrite max_signed_eq in *. nia. }
  assert (H / T = 0) as Hdiv by (apply Z.div_small; lia).
  assert (H mod T = H) as Hmod by (apply Z.mod_small; lia).
  split; [|split].
  - intros i Hi. rewrite row_bands_lookup by lia.
    unfold band_start, band_rows. rewrite Hdiv, Hmod.
    destruct (Z.ltb_spec i H); [|lia]. f_equal. f_equal; lia.
  - intros i Hi. exists H, (H - 1). rewrite row_bands_lookup by lia.
    unfold band_start, band_rows. rewrite Hdiv, Hmod.
    destruct (Z.ltb_spec i H); [lia|].
    split; [f_equal; f_equal; lia|]. split; [lia|].
    intros m0 copy. split; [apply update_world_empty_band; lia|].
    apply new_writes_refl.
  - destruct (run_threads_grid m T k wld W H w junkT) as (mT & HrT & HhT);
      [done|lia|apply row_bands_nonempty; lia|apply row_bands_covers; lia|].
    destruct (run_threads_grid m H k wld W H w junkH) as (mH & HrH & HhH);
      [done|lia|apply row_bands_nonempty; lia|apply row_bands_covers; lia|].
    exists mT, mH, (generations (Z.to_nat k) w W H).
    split; [done|]. split; [done|]. split; [congruence|].
    by rewrite HhT, HhH, !lookup_insert_eq.
Qed.

Lemma run_threads_idle_workers_witness :
  (∀ i, 0 <= i < 5 → row_bands 7 5 !! Z.to_nat i = Some (i, i)) ∧
  (∀ i, 5 <= i < 7 →
     ∃ s e, row_bands 7 5 !! Z.to_nat i = Some (s, e) ∧ s > e ∧
            ∀ m0 copy, update_world m0 1 copy 5 5 s e = Some m0 ∧
                       new_writes m0 m0 = []) ∧
  (∃ mT mH g,
     run_threads blinker_machine 7 2 1 5 5 [] = Some mT ∧
     run_threads blinker_machine 5 2 1 5 5 [] = Some mH ∧
     heap mT = heap mH ∧
     heap mT !! 1%positive = Some g ∧ heap mH !! 1%positive = Some g).
Proof.
  apply (run_threads_idle_workers blinker_machine 1 5 5 blinker 7 2 [] []);
    [ split; [unfold grid_dims; rewrite max_signed_eq; lia | split; reflexivity]
    | rewrite max_signed_eq; lia ].
Defined.

(** ** C8: the option -p *)

Lemma handle_option_p o ch optarg o' :
  handle_option o ch optarg = Some o' → opt_p o' = opt_p o.
Proof.
  unfold handle_option. intros Hh.
  repeat match type of Hh with
         | (if ?b then _ else _) = _ => destruct b
         | (sscanf_d ?s ≫= _) = _ => destruct (sscanf_d s); simpl in Hh
         end; try done; by injection Hh as <-.
Qed.

Lemma for_each_options_p opts o o' :
  for_each opts (λ '(ch, optarg) o, handle_option o ch optarg) o = Some o' →
  opt_p o' = opt_p o.
Proof.
  revert o. induction opts as [|[ch optarg] opts IH]; intros o Hrun.
  - by injection Hrun as <-.
  - simpl in Hrun. destruct (handle_option o ch optarg) as [o1|] eqn:Hh; [|done].
    simpl in Hrun. apply IH in Hrun. apply handle_option_p in Hh. congruence.
Qed.

(** C8, as stated, fails: the value given to -p is the number of threads
    of the run; "-p 4" and "-p 3" give runs with four and with three
    threads, not with the default two. *)
Lemma p_option_sets_thread_count :
  opt_num_threads <$> parse_options [("c"%char, "w.txt"%string)] = Some 2 ∧
  opt_num_threads <$>
    parse_options [("c"%char, "w.txt"%string); ("p"%char, "4"%string)] = Some 4 ∧
  opt_num_threads <$>
    parse_options [("c"%char, "w.txt"%string); ("p"%char, "3"%string)] = Some 3 ∧
  ∃ m frame m',
    main (λ _, Some [Num 5; Num 5; Num 0])
      [("c"%char, "w.txt"%string); ("p"%char, "4"%string)] []
      = MainDone m frame ∧
    run_threads (Machine {[main_world := replicate 25 0]} []) 4 20
      main_world 5 5 [] = Some m' ∧
    print_world m' main_world 5 5 20 = Some frame ∧
    m = free m' main_world.
Proof.
  split; [reflexivity|]. split; [reflexivity|]. split; [reflexivity|].
  do 3 eexists. split; [by vm_compute|]. split; [by vm_compute|].
  split; by vm_compute.
Qed.

(** C8, amended: the argument of "-p" is read with [sscanf] into
    [num_threads], the variable that [main] passes to [run_threads] as
    the number of threads: when the options end with "-p s" and s reads
    as v, the run is made with v threads, and the other settings are
    those of the options before; the variable [p] is never assigned and
    stays 1.  A run of [main] that returns has made that call, has drawn
    the world it left, and has freed it. *)
Theorem p_option_is_thread_count opts o s v :
  parse_options opts = Some o → sscanf_d s = Some v →
  ∃ o',
    parse_options (opts ++ [("p"%char, s)]) = Some o' ∧
    opt_num_threads o' = v ∧
    opt_p o' = 1 ∧ opt_p o = 1 ∧
    opt_config_filename o' = opt_config_filename o ∧
    opt_num_turns o' = opt_num_turns o ∧
    opt_delay o' = opt_delay o ∧
    ∀ files junk m frame,
      main files (opts ++ [("p"%char, s)]) junk = MainDone m frame →
      ∃ W H w m',
        run_threads (Machine {[main_world := w]} []) v (opt_num_turns o)
          main_world W H junk = Some m' ∧
        print_world m' main_world W H (opt_num_turns o) = Some frame ∧
        m = free m' main_world.
Proof.
  intros Hparse Hscan. unfold parse_options in *.
  pose proof (for_each_options_p _ _ _ Hparse) as Hp. simpl in Hp.
  eexists. split.
  { rewrite for_each_app, Hparse. simpl. unfold handle_option. simpl.
    rewrite Hscan. simpl. reflexivity. }
  simpl. repeat (split; [done|]).
  intros files junk m frame. unfold main, parse_options.
  rewrite for_each_app, Hparse. simpl. unfold handle_option. simpl.
  rewrite Hscan. simpl.
  destruct (opt_config_filename o) as [f|]; [|done].
  destruct (initialize_world (files f)) as [| |W H w]; try done.
  unfold main_run. simpl.
  destruct (run_threads _ v _ _ _ _ _) as [m'|] eqn:Hrun; [|done].
  destruct (print_world m' _ _ _ _) as [frame'|] eqn:Hframe; [|done].
  intros [= <- <-]. eauto 10.
Qed.

Lemma p_option_is_thread_count_witness :
  ∃ o',
    parse_options ([("c"%char, "w.txt"%string)] ++ [("p"%char, "8"%string)])
      = Some o' ∧
    opt_num_threads o' = 8 ∧
    opt_p o' = 1 ∧
    opt_p {| opt_config_filename := Some "w.txt"%string; opt_delay := 100;
             opt_num_turns := 20; opt_p := 1; opt_num_threads := 2 |} = 1 ∧
    opt_config_filename o' = Some "w.txt"%string ∧
    opt_num_turns o' = 20 ∧
    opt_delay o' = 100 ∧
    ∀ files junk m frame,
      main files ([("c"%char, "w.txt"%string)] ++ [("p"%char, "8"%string)]) junk
        = MainDone m frame →
      ∃ W H w m',
        run_threads (Machine {[main_world := w]} []) 8 20
          main_world W H junk = Some m' ∧
        print_world m' main_world W H 20 = Some frame ∧
        m = free m' main_world.
Proof.
  apply (p_option_is_thread_count [("c"%char, "w.txt"%string)]
           {| opt_config_filename := Some "w.txt"%string; opt_delay := 100;
              opt_num_turns := 20; opt_p := 1; opt_num_threads := 2 |}
           "8"%string 8); reflexivity.
Defined.

(** ** C9: reading the configuration *)


(** A run of the loop that ends with the array has read all the pairs,
    has stored 1 at the index of each, inside the array, and nothing
    else. *)
Lemma read_pairs_world n :
  ∀ toks W H w W' H' w',
    read_pairs n toks W H (Some w) = InitWorld W' H' w' →
    W' = W ∧ H' = H ∧ length w' = length w ∧
    ∃ ps,
      take_pairs n toks = Some ps ∧
      ∀ i, (w' !! i = Some 1 ↔
              w !! i = Some 1 ∨
              ∃ p, p ∈ ps ∧ Z.to_nat (pair_index W H p) = i) ∧
           (w' !! i ≠ Some 1 → w' !! i = w !! i).
Proof.
  induction n as [|n IH]; intros toks W H w W' H' w' Hrun; simpl in Hrun.
  - injection Hrun as <- <- <-. repeat split; try done. exists [].
    split; [done|]. intros i. split; [|done]. split; [by left|].
    intros [?|(p & Hp & _)]; [done|]. by apply elem_of_nil in Hp.
  - destruct (scan_number toks) as [[col toks1]|] eqn:Hcol; [|done].
    destruct (scan_number toks1) as [[row toks2]|] eqn:Hrow; [|done].
    set (k := translate_to_1D (to_int (to_unsigned col))
                (to_int (to_unsigned row)) (to_unsigned W) (to_unsigned H)) in *.
    case_bool_decide as Hk; [|done].
    assert (0 <= k) as Hk0 by apply translate_to_1D_nonneg.
    apply IH in Hrun as (-> & -> & Hlen & ps & Hps & Hcells).
    rewrite length_insert in Hlen. repeat split; try done.
    exists ((col, row) :: ps). split.
    { simpl. rewrite Hcol. simpl. rewrite Hrow. simpl. by rewrite Hps. }
    intros i. destruct (Hcells i) as [Hone Hother].
    destruct (decide (i = Z.to_nat k)) as [->|Hi].
    + rewrite list_lookup_insert_eq in Hone, Hother by lia. split.
      * split; [|intros _; apply Hone; by left].
        intros _. right. exists (col, row). split; [apply list_elem_of_here|done].
      * intros Hne. exfalso. apply Hne, Hone. by left.
    + rewrite list_lookup_insert_ne in Hone, Hother by done. split; [|done].
      rewrite Hone. split.
      * intros [?|(p & Hp & Hpi)]; [by left|]. right. exists p.
        split; [by apply list_elem_of_further|done].
      * intros [?|(p & Hp & Hpi)]; [by left|]. right.
        apply elem_of_cons in Hp as [->|Hp]; [done|]. eauto.
Qed.







(** The three outcomes on small configurations: a 3 by 3 grid with the
    pairs (1, 1) and (4, 0), the second wrapped once; a pair that cannot
    be read; a pair two widths out of range, stored outside the array. *)
Example initialize_world_grid :
  initialize_world (Some [Num 3; Num 3; Num 2; Num 1; Num 1; Num 4; Num 0])
    = InitWorld 3 3 [0; 1; 0; 0; 1; 0; 0; 0; 0].
Proof. reflexivity. Qed.

Example initialize_world_bad_pair :
  initialize_world (Some [Num 3; Num 3; Num 2; Num 1; Num 1; Num 4; Junk])
    = InitNull.
Proof. reflexivity. Qed.

Example initialize_world_far_pair :
  initialize_world (Some [Num 3; Num 3; Num 2; Num 9; Num 9; Junk])
    = InitUndefined.
Proof. reflexivity. Qed.

(** The blinker after one turn of two workers and after two. *)
Example blinker_one_turn :
  (λ m, heap m !! 1%positive) <$> run_threads blinker_machine 2 1 1 5 5 []
    = Some (Some [0; 0; 0; 0; 0;
                  0; 0; 0; 0; 0;
                  0; 1; 1; 1; 0;
                  0; 0; 0; 0; 0;
                  0; 0; 0; 0; 0]).
Proof. by vm_compute. Qed.

Example blinker_two_turns :
  (λ m, heap m !! 1%positive) <$> run_threads blinker_machine 2 2 1 5 5 []
    = Some (Some blinker).
Proof. by vm_compute. Qed.

(** * Further properties of the code *)

(** ** [update_world]: bands *)

(** X1: a band may be cut in two: [update_world] on the rows s..f does
    what [update_world] on s..e followed by [update_world] on e+1..f
    does, stores and undefined behaviour included. *)
Theorem update_world_split m wld copy W H s e f :
  s <= e + 1 → e <= f →
  update_world m wld copy W H s f =
  update_world m wld copy W H s e ≫= λ m', update_world m' wld copy W H (e + 1) f.
Proof.
  intros Hse Hef. unfold update_world.
  replace (f - s + 1) with ((e - s + 1) + (f - (e + 1) + 1)) by lia.
  rewrite seqZ_app by lia.
  replace (s + (e - s + 1)) with (e + 1) by lia.
  apply for_each_app.
Qed.

Lemma update_world_split_witness :
  update_world blinker_machine 1 2 5 5 0 4 =
  update_world blinker_machine 1 2 5 5 0 1
    ≫= λ m', update_world m' 1 2 5 5 (1 + 1) 4.
Proof. apply (update_world_split blinker_machine 1 2 5 5 0 1 4); lia. Defined.

Lemma NoDup_band_cells W s e : NoDup (band_cells W s e).
Proof.
  unfold band_cells. apply NoDup_bind.
  - intros y1 y2 [y x] _ _ H1 H2.
    apply list_elem_of_fmap in H1 as (? & [= -> ->] & _).
    apply list_elem_of_fmap in H2 as (? & [= -> _] & _). done.
  - intros y _. apply NoDup_fmap_2; [|apply NoDup_seqZ].
    by intros ?? [= ->].
  - apply NoDup_seqZ.
Qed.

Lemma NoDup_cells_writes next c cells W H :
  0 < W → 0 < H → Forall (λ '(y, x), in_grid x y W H) cells → NoDup cells →
  NoDup (cells_writes next c cells W H).
Proof.
  intros HW HH Hin Hnd. unfold cells_writes. rewrite Forall_forall in Hin.
  apply NoDup_bind; [| |done].
  - intros [y1 x1] [y2 x2] [p i] Hc1 Hc2 H1 H2.
    destruct (cell_written c x1 y1 W H); [|by apply elem_of_nil in H1].
    destruct (cell_written c x2 y2 W H); [|by apply elem_of_nil in H2].
    apply list_elem_of_singleton in H1 as [= -> ->].
    apply list_elem_of_singleton in H2 as [= Heq].
    pose proof (Hin _ Hc1) as [? ?]. pose proof (Hin _ Hc2) as [? ?].
    by apply (index_inj x1 y1 x2 y2 W H) in Heq as [-> ->].
  - intros [y x] _. destruct (cell_written c x y W H);
      [apply NoDup_singleton|apply NoDup_nil_2].
Qed.

(** X2: on a band inside the grid [update_world] stores into a cell at
    most once: its logged stores are pairwise distinct, and there are at
    most as many as the band has cells. *)
Theorem update_world_stores_once m wld copy W H w c s e :
  wld ≠ copy → is_grid m wld W H w → is_grid m copy W H c →
  0 <= s → s <= e + 1 → e < H →
  ∃ m',
    update_world m wld copy W H s e = Some m' ∧
    NoDup (new_writes m m') ∧
    Z.of_nat (length (new_writes m m')) <= (e - s + 1) * W.
Proof.
  intros Hne (Hd & Hw & Hlw) (_ & Hc & Hlc) Hs Hse He.
  pose proof Hd as (HW & HH & _). eexists.
  split; [by apply (update_world_grid m wld copy W H w c)|].
  rewrite new_writes_app.
  assert (NoDup (cells_writes wld c (band_cells W s e) W H)) as Hnd.
  { apply NoDup_cells_writes; try done.
    - by apply band_cells_in_grid.
    - apply NoDup_band_cells. }
  split; [done|].
  assert (cells_writes wld c (band_cells W s e) W H
            ⊆ (λ '(y, x), (wld, index x y W H)) <$> band_cells W s e) as Hsub.
  { intros [p i] Hel.
    apply elem_of_cells_writes in Hel as [-> (y & x & Hcell & ->)].
    apply list_elem_of_fmap. by exists (y, x). }
  apply (NoDup_submseteq _ _ Hnd) in Hsub.
  apply submseteq_length in Hsub. rewrite length_fmap in Hsub.
  unfold band_cells in Hsub.
  assert (length (seqZ s (e - s + 1) ≫= λ y, (λ x, (y, x)) <$> seqZ 0 W)
          = (Z.to_nat (e - s + 1) * Z.to_nat W)%nat) as Hlen.
  { generalize (seqZ s (e - s + 1)) (length_seqZ s (e - s + 1)).
    intros l <-. induction l as [|y l IH]; [done|].
    change ((y :: l) ≫= ?g) with (g y ++ (l ≫= g)).
    rewrite length_app, length_fmap, length_seqZ, IH. simpl. lia. }
  rewrite Hlen in Hsub. unfold band_cells. nia.
Qed.

Lemma update_world_stores_once_witness :
  ∃ m',
    update_world blinker_machine 1 2 5 5 0 2 = Some m' ∧
    NoDup (new_writes blinker_machine m') ∧
    Z.of_nat (length (new_writes blinker_machine m')) <= (2 - 0 + 1) * 5.
Proof.
  apply (update_world_stores_once blinker_machine 1 2 5 5 blinker blinker 0 2);
    try lia; try done;
    (split; [unfold grid_dims; rewrite max_signed_eq; lia | split; reflexivity]).
Defined.

(** ** The computing phase, interleaved *)

(** X3: the calls of [update_cell] that the workers of a computing phase
    make may be taken in any order, as when the threads interleave: the
    heap at the end is the one that the workers leave when they run one
    after the other. *)
Theorem compute_phase_any_order m wld copy W H w c T turns cells :
  wld ≠ copy → is_grid m wld W H w → is_grid m copy W H c →
  1 <= T <= max_signed →
  cells ≡ₚ all_cells W (row_bands T H) →
  ∃ m1 m2,
    for_each cells (λ '(y, x) m, update_cell m copy wld x y W H) m = Some m1 ∧
    for_each (thread_data turns wld W H copy (row_bands T H)) compute_phase m
      = Some m2 ∧
    heap m1 = heap m2.
Proof.
  intros Hne (Hd & Hw & Hlw) (_ & Hc & Hlc) HT Hperm.
  pose proof Hd as (HW & HH & HWH).
  assert (0 <= H <= max_signed) as HH' by (rewrite max_signed_eq in *; nia).
  assert (covers (row_bands T H) H) as Hcov by (apply row_bands_covers; lia).
  assert (Forall (λ '(y, x), in_grid x y W H) cells) as Hin.
  { rewrite Hperm. by apply all_cells_in_grid. }
  eexists _, _. split; [by apply (for_each_update_cell m wld copy c w)|].
  split.
  { rewrite compute_phase_threads, for_each_update_world.
    apply (for_each_update_cell m wld copy c w); try done.
    by apply all_cells_in_grid. }
  simpl. f_equal. apply update_cells_same_cells; try done.
  - by apply all_cells_in_grid.
  - intros y x. by rewrite Hperm.
Qed.

Lemma compute_phase_any_order_witness :
  ∃ m1 m2,
    for_each (reverse (all_cells 5 (row_bands 2 5)))
      (λ '(y, x) m, update_cell m 2 1 x y 5 5) blinker_machine = Some m1 ∧
    for_each (thread_data 1 1 5 5 2 (row_bands 2 5)) compute_phase
      blinker_machine = Some m2 ∧
    heap m1 = heap m2.
Proof.
  apply (compute_phase_any_order blinker_machine 1 2 5 5 blinker blinker 2 1
           (reverse (all_cells 5 (row_bands 2 5))));
    [ done
    | split; [unfold grid_dims; rewrite max_signed_eq; lia | split; reflexivity]
    | split; [unfold grid_dims; rewrite max_signed_eq; lia | split; reflexivity]
    | rewrite max_signed_eq; lia
    | apply reverse_Permutation ].
Defined.

Lemma turn_life_rule_witness :
  ∃ m' w' v n v',
    turn (thread_data 1 1 5 5 2 (row_bands 2 5)) blinker_machine = Some m' ∧
    heap m' !! 1%positive = Some w' ∧
    blinker !! Z.to_nat (translate_to_1D 1 2 5 5) = Some v ∧
    count_live_neighbors blinker_machine 1 1 2 5 5 = Some n ∧
    w' !! Z.to_nat (translate_to_1D 1 2 5 5) = Some v' ∧
    alive v' = life_rule (alive v) n.
Proof.
  apply (turn_life_rule 1 1 2 5 5 (row_bands 2 5) blinker_machine blinker
           blinker 1 2);
    [ done
    | split; [unfold grid_dims; rewrite max_signed_eq; lia | split; reflexivity]
    | split; [unfold grid_dims; rewrite max_signed_eq; lia | split; reflexivity]
    | done
    | apply row_bands_covers; rewrite ?max_signed_eq; lia
    | unfold in_grid; lia ].
Defined.

(** ** The snapshot phase *)

(** X5: in the snapshot phase of a turn the thread with id 0 makes the
    snapshot equal to the live grid, whatever it held, by one store per
    cell in the order of the indices; the live grid and every other
    block stay as they were, and the other threads store nothing. *)
Theorem snapshot_phase_copies turns wld copy W H bands m w c :
  wld ≠ copy → is_grid m wld W H w → is_grid m copy W H c → bands ≠ [] →
  ∃ m',
    for_each (thread_data turns wld W H copy bands) snapshot_phase m = Some m' ∧
    heap m' = <[copy := w]> (heap m) ∧
    heap m' !! wld = Some w ∧ heap m' !! copy = Some w ∧
    new_writes m m' = (λ i, (copy, i)) <$> seqZ 0 (W * H).
Proof.
  intros Hne (_ & Hw & Hlw) (_ & Hc & Hlc) Hbands.
  rewrite snapshot_phase_threads. destruct bands as [|b bands]; [done|].
  rewrite (copy_loop wld copy w c) by done. eexists. split; [done|]. simpl.
  split; [done|]. rewrite lookup_insert_ne, lookup_insert_eq by done.
  split; [done|]. split; [done|]. apply new_writes_app.
Qed.

Lemma snapshot_phase_copies_witness :
  ∃ m',
    for_each (thread_data 1 1 5 5 2 (row_bands 2 5)) snapshot_phase
      stale_machine = Some m' ∧
    heap m' = <[2%positive := blinker]> (heap stale_machine) ∧
    heap m' !! 1%positive = Some blinker ∧
    heap m' !! 2%positive = Some blinker ∧
    new_writes stale_machine m' = (λ i, (2%positive, i)) <$> seqZ 0 (5 * 5).
Proof.
  apply (snapshot_phase_copies 1 1 2 5 5 (row_bands 2 5) stale_machine
           blinker (replicate 25 7));
    [ done
    | split; [unfold grid_dims; rewrite max_signed_eq; lia | split; reflexivity]
    | split; [unfold grid_dims; rewrite max_signed_eq; lia | split; reflexivity]
    | done ].
Defined.

(** ** [run_threads]: the heap after a run *)

Lemma grid_rows_int W H : grid_dims W H → 0 <= H <= max_signed.
Proof. intros (HW & HH & HWH). rewrite max_signed_eq in *. nia. Qed.

(** X6: a run with T >= 1 workers on a grid returns; it changes the
    block of the world, which then holds the grid [num_turns]
    generations on with its W * H cells, and nothing else: the snapshot
    that it allocates is freed, so the heap has the blocks it had. *)
Theorem run_threads_heap m T k wld W H w junk :
  is_grid m wld W H w → 1 <= T <= max_signed →
  ∃ m',
    run_threads m T k wld W H junk = Some m' ∧
    heap m' = <[wld := generations (Z.to_nat k) w W H]> (heap m) ∧
    dom (heap m') = dom (heap m) ∧
    is_grid m' wld W H (generations (Z.to_nat k) w W H).
Proof.
  intros Hg HT. pose proof Hg as (Hd & Hw & Hlw).
  pose proof (grid_rows_int W H Hd) as HH.
  destruct (run_threads_grid m T k wld W H w junk) as (m' & Hrun & Hheap);
    [done|lia|apply row_bands_nonempty; lia|apply row_bands_covers; lia|].
  exists m'. split; [done|]. split; [done|]. split.
  - rewrite Hheap. by apply dom_insert_lookup_L.
  - split; [done|]. rewrite Hheap, lookup_insert_eq. split; [done|].
    by rewrite generations_length.
Qed.

Lemma run_threads_heap_witness :
  ∃ m',
    run_threads blinker_machine 3 4 1 5 5 [] = Some m' ∧
    heap m' = <[1%positive := generations (Z.to_nat 4) blinker 5 5]>
                (heap blinker_machine) ∧
    dom (heap m') = dom (heap blinker_machine) ∧
    is_grid m' 1 5 5 (generations (Z.to_nat 4) blinker 5 5).
Proof.
  apply (run_threads_heap blinker_machine 3 4 1 5 5 blinker []);
    [ split; [unfold grid_dims; rewrite max_signed_eq; lia | split; reflexivity]
    | rewrite max_signed_eq; lia ].
Defined.

Lemma generations_add j k w W H :
  generations (j + k) w W H = generations k (generations j w W H) W H.
Proof. revert w. induction j as [|j IH]; intros w; [done|]. simpl. apply IH. Qed.

(** X7: runs compose: a run of j turns followed by a run of k turns, with
    any numbers of workers, leaves the heap that one run of j + k turns
    leaves. *)
Theorem run_threads_compose m T1 T2 T3 j k wld W H w junk1 junk2 junk3 :
  is_grid m wld W H w →
  1 <= T1 <= max_signed → 1 <= T2 <= max_signed → 1 <= T3 <= max_signed →
  0 <= j → 0 <= k →
  ∃ m1 m2 m3,
    run_threads m T1 j wld W H junk1 = Some m1 ∧
    run_threads m1 T2 k wld W H junk2 = Some m2 ∧
    run_threads m T3 (j + k) wld W H junk3 = Some m3 ∧
    heap m2 = heap m3.
Proof.
  intros Hg HT1 HT2 HT3 Hj Hk.
  destruct (run_threads_heap m T1 j wld W H w junk1 Hg HT1)
    as (m1 & Hr1 & Hh1 & _ & Hg1).
  destruct (run_threads_heap m1 T2 k wld W H _ junk2 Hg1 HT2)
    as (m2 & Hr2 & Hh2 & _ & _).
  destruct (run_threads_heap m T3 (j + k) wld W H w junk3 Hg HT3)
    as (m3 & Hr3 & Hh3 & _ & _).
  exists m1, m2, m3. split; [done|]. split; [done|]. split; [done|].
  rewrite Hh2, Hh1, Hh3, insert_insert_eq.
  by rewrite Z2Nat.inj_add, generations_add by lia.
Qed.

Lemma run_threads_compose_witness :
  ∃ m1 m2 m3,
    run_threads blinker_machine 2 1 1 5 5 [] = Some m1 ∧
    run_threads m1 1 2 1 5 5 [] = Some m2 ∧
    run_threads blinker_machine 3 (1 + 2) 1 5 5 [] = Some m3 ∧
    heap m2 = heap m3.
Proof.
  apply (run_threads_compose blinker_machine 2 1 3 1 2 1 5 5 blinker [] [] []);
    try (rewrite max_signed_eq; lia); try lia;
    (split; [unfold grid_dims; rewrite max_signed_eq; lia | split; reflexivity]).
Defined.

(** X8: with a number of turns that is zero or negative no thread enters
    its loop: the run returns with the heap and the log of stores as they
    were, for any heap, any dimensions and any number T >= 1 of
    threads. *)
Theorem run_threads_no_turns m T k wld W H junk :
  1 <= T → k <= 0 →
  ∃ m', run_threads m T k wld W H junk = Some m' ∧
        heap m' = heap m ∧ writes m' = writes m.
Proof.
  intros HT Hk. unfold run_threads, malloc.
  destruct (Z.eqb_spec T 0); [lia|]. rewrite seqZ_nil by done. simpl.
  eexists. split; [done|]. unfold free. simpl. split; [|done].
  rewrite delete_insert_eq. apply delete_id.
  apply not_elem_of_dom. apply is_fresh.
Qed.

Lemma run_threads_no_turns_witness :
  ∃ m', run_threads one_cell_machine 4 (-3) 1 1 1 [] = Some m' ∧
        heap m' = heap one_cell_machine ∧ writes m' = writes one_cell_machine.
Proof. apply (run_threads_no_turns one_cell_machine 4 (-3) 1 1 1 []); lia. Defined.

(** ** Invariants of the grid *)

Lemma update_cells_Forall (P : Z → Prop) c cells w W H :
  P 0 → P 1 → Forall P w → Forall P (update_cells c cells w W H).
Proof.
  intros H0 H1. revert w.
  induction cells as [|[y x] cells IH]; intros w Hw; [done|].
  rewrite update_cells_cons. apply IH. apply Forall_insert; [done|].
  unfold next_value.
  destruct (alive_at c (index x y W H) && _); [done|].
  destruct (live_neighbors c x y W H =? 3); [done|].
  destruct (w !! Z.to_nat (index x y W H)) as [v|] eqn:Hv; simpl; [|done].
  by apply (Forall_lookup_1 P w _ v) in Hv.
Qed.

Lemma generations_Forall (P : Z → Prop) k w W H :
  P 0 → P 1 → Forall P w → Forall P (generations k w W H).
Proof.
  intros H0 H1. revert w. induction k as [|k IH]; intros w Hw; [done|].
  simpl. apply IH. by apply update_cells_Forall.
Qed.

(** X9: the cells stay binary: when every cell of the grid holds 0 or 1,
    every cell holds 0 or 1 after a run of any number of turns with any
    number T >= 1 of workers. *)
Theorem run_threads_binary m T k wld W H w junk :
  is_grid m wld W H w → 1 <= T <= max_signed →
  Forall (λ v, v = DEAD ∨ v = ALIVE) w →
  ∃ m' w',
    run_threads m T k wld W H junk = Some m' ∧
    heap m' !! wld = Some w' ∧
    Forall (λ v, v = DEAD ∨ v = ALIVE) w'.
Proof.
  intros Hg HT Hbin.
  destruct (run_threads_heap m T k wld W H w junk Hg HT)
    as (m' & Hrun & Hheap & _ & _).
  exists m', (generations (Z.to_nat k) w W H). split; [done|].
  rewrite Hheap, lookup_insert_eq. split; [done|].
  apply generations_Forall; auto.
Qed.

Lemma run_threads_binary_witness :
  ∃ m' w',
    run_threads blinker_machine 2 3 1 5 5 [] = Some m' ∧
    heap m' !! 1%positive = Some w' ∧
    Forall (λ v, v = DEAD ∨ v = ALIVE) w'.
Proof.
  apply (run_threads_binary blinker_machine 2 3 1 5 5 blinker []);
    [ split; [unfold grid_dims; rewrite max_signed_eq; lia | split; reflexivity]
    | rewrite max_signed_eq; lia
    | unfold blinker, DEAD, ALIVE;
      repeat (apply Forall_cons_2; [(by left) || (by right)|]);
      apply Forall_nil_2 ].
Defined.

Lemma alive_at_dead c i : Forall (λ v, v ≠ ALIVE) c → alive_at c i = false.
Proof.
  intros Hc. unfold alive_at.
  destruct (c !! Z.to_nat i) as [v|] eqn:Hv; [|done].
  pose proof (Forall_lookup_1 _ c _ v Hc Hv) as Hne. simpl in Hne.
  unfold alive. by apply Z.eqb_neq.
Qed.

Lemma live_neighbors_dead c x y W H :
  Forall (λ v, v ≠ ALIVE) c → live_neighbors c x y W H = 0.
Proof.
  intros Hc. unfold live_neighbors. rewrite length_filter_b2z.
  unfold moore_offsets. simpl. by rewrite !alive_at_dead.
Qed.

Lemma update_cells_dead c cells w W H :
  Forall (λ v, v ≠ ALIVE) c → update_cells c cells w W H = w.
Proof.
  intros Hc. revert w. induction cells as [|[y x] cells IH]; intros w; [done|].
  rewrite update_cells_cons. unfold next_value.
  rewrite live_neighbors_dead, alive_at_dead by done. simpl.
  destruct (w !! Z.to_nat (index x y W H)) as [v|] eqn:Hv; simpl.
  - rewrite list_insert_id by done. apply IH.
  - rewrite list_insert_ge by (by apply lookup_ge_None). apply IH.
Qed.

Lemma cells_writes_dead next c cells W H :
  Forall (λ v, v ≠ ALIVE) c → cells_writes next c cells W H = [].
Proof.
  intros Hc. induction cells as [|[y x] cells IH]; [done|].
  unfold cells_writes, cell_written in *. simpl.
  rewrite live_neighbors_dead, alive_at_dead by done. simpl. apply IH.
Qed.

Lemma generations_dead k w W H :
  Forall (λ v, v ≠ ALIVE) w → generations k w W H = w.
Proof.
  intros Hw. induction k as [|k IH]; [done|]. simpl.
  unfold next_generation.
  rewrite update_cells_dead by done. apply IH.
Qed.

(** X10: a grid without a live cell is a fixed point: a band of
    [update_world] on it stores nothing and returns the machine as it
    was, and a run of any number of turns with any number T >= 1 of
    workers returns with the heap unchanged. *)
Theorem dead_world_stays m T k wld copy W H w c junk s e :
  wld ≠ copy → is_grid m wld W H w → is_grid m copy W H c →
  1 <= T <= max_signed → 0 <= s → e < H →
  Forall (λ v, v ≠ ALIVE) w → Forall (λ v, v ≠ ALIVE) c →
  update_world m wld copy W H s e = Some m ∧
  ∃ m', run_threads m T k wld W H junk = Some m' ∧ heap m' = heap m.
Proof.
  intros Hne Hg (_ & Hc & Hlc) HT Hs He Hw Hdc.
  pose proof Hg as (Hd & Hwl & Hlw). split.
  - rewrite (update_world_grid m wld copy W H w c) by done.
    rewrite update_cells_dead, cells_writes_dead by done.
    rewrite insert_id by done. by rewrite app_nil_r, machine_eta.
  - destruct (run_threads_heap m T k wld W H w junk Hg HT)
      as (m' & Hrun & Hheap & _ & _).
    exists m'. split; [done|]. rewrite Hheap, generations_dead by done.
    by apply insert_id.
Qed.

Lemma dead_world_stays_witness :
  update_world (Machine {[1%positive := replicate 25 0;
                          2%positive := replicate 25 0]} [])
    1 2 5 5 0 4
  = Some (Machine {[1%positive := replicate 25 0;
                    2%positive := replicate 25 0]} []) ∧
  ∃ m', run_threads (Machine {[1%positive := replicate 25 0;
                               2%positive := replicate 25 0]} [])
          2 3 1 5 5 [] = Some m' ∧
        heap m' = heap (Machine {[1%positive := replicate 25 0;
                                  2%positive := replicate 25 0]} []).
Proof.
  apply (dead_world_stays
           (Machine {[1%positive := replicate 25 0;
                      2%positive := replicate 25 0]} [])
           2 3 1 2 5 5 (replicate 25 0) (replicate 25 0) [] 0 4);
    try done; try lia; try (rewrite max_signed_eq; lia);
    try (split; [unfold grid_dims; rewrite max_signed_eq; lia
                | split; reflexivity]);
    (apply Forall_forall; intros v Hv;
     apply elem_of_replicate in Hv as [-> _]; done).
Defined.

(** ** The rows that the threads announce *)

Lemma assign_rows_sizes n :
  ∀ remainder cur base,
    0 <= remainder → 0 <= base → 0 <= cur →
    cur + Z.of_nat n * base + Z.min remainder (Z.of_nat n) <= max_signed →
    foldr (λ b acc, band_size b + acc) 0 (assign_rows n remainder cur base)
      = Z.of_nat n * base + Z.min remainder (Z.of_nat n).
Proof.
  induction n as [|n IH]; intros remainder cur base Hr Hb Hc Hmax.
  { simpl. lia. }
  assert (0 <= Z.of_nat n * base) by (apply Z.mul_nonneg_nonneg; lia).
  simpl assign_rows. destruct (Z.ltb_spec 0 remainder) as [Hpos|Hzero].
  - rewrite to_unsigned_add_l, to_int_to_unsigned.
    rewrite to_int_small by (apply is_int_intro; nia).
    simpl foldr. rewrite IH by (lia || nia). unfold band_size. simpl. nia.
  - assert (remainder = 0) as -> by lia.
    rewrite to_unsigned_sub_l.
    replace (to_unsigned cur + base - 1) with (to_unsigned cur + (base - 1))
      by lia.
    rewrite to_unsigned_add_l, to_int_to_unsigned.
    rewrite to_int_small by (apply is_int_intro; nia).
    simpl foldr. rewrite IH by (lia || nia). unfold band_size. simpl. nia.
Qed.

Lemma total_rows_thread_data (ids : nat → Z) turns wld W H copy bands :
  foldr (λ td acc, total_rows td + acc) 0
    (imap (λ i band, {| id := ids i; world := wld; width := W;
       height := H; num_turns := turns; start_row := band.1;
       end_row := band.2; world_copy := copy |}) bands)
  = foldr (λ b acc, band_size b + acc) 0 bands.
Proof.
  revert ids. induction bands as [|b bands IH]; intros ids; [done|].
  rewrite imap_cons. cbn [foldr]. f_equal. apply (IH (ids ∘ S)).
Qed.

(** X11: the numbers of rows [total_rows] that the threads of a run
    compute from their bands add up to the height of the grid, for every
    height H >= 0 and every number T >= 1 of threads, also when T > H
    and some threads have no row. *)
Theorem total_rows_sum T H turns wld W copy :
  0 <= H <= max_signed → 1 <= T →
  foldr (λ td acc, total_rows td + acc) 0
    (thread_data turns wld W H copy (row_bands T H)) = H.
Proof.
  intros HH HT. unfold thread_data.
  rewrite (total_rows_thread_data (λ i, Z.of_nat i)). unfold row_bands.
  rewrite Z.rem_mod_nonneg, Z.quot_div_nonneg by lia.
  assert (0 < T) as HT' by lia.
  pose proof (Z.mod_pos_bound H T HT') as Hm.
  pose proof (Z.div_mod H T) as Hdm.
  assert (0 <= H / T <= H) as Hq.
  { split; [apply Z.div_pos; lia|]. apply Z.div_le_upper_bound; nia. }
  rewrite max_signed_eq in HH.
  rewrite to_unsigned_small by (rewrite modulus_eq; lia).
  rewrite assign_rows_sizes; rewrite ?Z2Nat.id, ?max_signed_eq by lia; nia.
Qed.

Lemma total_rows_sum_witness :
  foldr (λ td acc, total_rows td + acc) 0
    (thread_data 20 1 10 7 2 (row_bands 4 7)) = 7.
Proof.
  apply (total_rows_sum 4 7 20 1 10 2); rewrite ?max_signed_eq; lia.
Defined.

(** ** [translate_to_1D]: cells and indices *)

(** X12: on a grid the index and the coordinates determine each other:
    the index i of a cell (x, y) lies in the array, with i mod W = x and
    i / W = y, and every index i of the array is the index of the cell
    (i mod W, i / W).  So no two cells share an index and no entry of the
    array is left without a cell. *)
Theorem translate_to_1D_round_trip W H :
  grid_dims W H →
  (∀ x y, in_grid x y W H →
     0 <= translate_to_1D x y W H < W * H ∧
     translate_to_1D x y W H mod W = x ∧
     translate_to_1D x y W H / W = y) ∧
  (∀ i, 0 <= i < W * H →
     in_grid (i mod W) (i / W) W H ∧
     translate_to_1D (i mod W) (i / W) W H = i).
Proof.
  intros Hd. pose proof Hd as (HW & HH & _). split.
  - intros x y Hin. destruct (translate_cell x y W H Hd Hin) as [-> Hi].
    destruct Hin as [Hx Hy]. rewrite index_in_range by done.
    split; [rewrite index_in_range in Hi by done; lia|].
    split.
    + rewrite Z.add_comm, Z.mod_add by lia. by apply Z.mod_small.
    + rewrite Z.add_comm, Z.div_add by lia. rewrite Z.div_small by done. lia.
  - intros i Hi.
    pose proof (Z.mod_pos_bound i W HW) as Hm.
    pose proof (Z.div_mod i W) as Hdm.
    assert (0 <= i / W) by (apply Z.div_pos; lia).
    assert (i / W < H) by (apply Z.div_lt_upper_bound; [done|lia]).
    assert (in_grid (i mod W) (i / W) W H) as Hin by (unfold in_grid; lia).
    split; [done|].
    destruct (translate_cell _ _ W H Hd Hin) as [-> _].
    rewrite index_in_range by (destruct Hin; done). lia.
Qed.

Lemma translate_to_1D_round_trip_witness :
  (∀ x y, in_grid x y 5 3 →
     0 <= translate_to_1D x y 5 3 < 5 * 3 ∧
     translate_to_1D x y 5 3 mod 5 = x ∧
     translate_to_1D x y 5 3 / 5 = y) ∧
  (∀ i, 0 <= i < 5 * 3 →
     in_grid (i mod 5) (i / 5) 5 3 ∧
     translate_to_1D (i mod 5) (i / 5) 5 3 = i).
Proof.
  apply (translate_to_1D_round_trip 5 3).
  unfold grid_dims. rewrite max_signed_eq. lia.
Defined.

(** X13: the wrap is a single subtraction, not a remainder: for a row of
    the grid and an [int] column two widths or more to the right, the
    result is row * W + (col - W), at least the index of the first cell
    of the next row; in the last row it lies outside the array. *)
Theorem translate_to_1D_two_widths col row W H :
  grid_dims W H → 0 <= row < H → 2 * W <= col → is_int col →
  translate_to_1D col row W H = row * W + (col - W) ∧
  (row + 1) * W <= translate_to_1D col row W H ∧
  (row = H - 1 → W * H <= translate_to_1D col row W H).
Proof.
  intros Hd Hr Hc Hic.
  destruct (grid_dims_bounds W H Hd) as (HW & HH & HWH & _ & _).
  destruct Hd as (_ & _ & Hsize).
  unfold is_int in Hic. rewrite max_signed_eq, min_signed_eq in *.
  rewrite modulus_eq in *.
  assert (translate_to_1D col row W H = row * W + (col - W)) as ->.
  { unfold translate_to_1D.
    rewrite (to_int_small W), (to_int_small H)
      by (unfold is_int; rewrite min_signed_eq, max_signed_eq; lia).
    destruct (Z.ltb_spec col 0); [lia|].
    destruct (Z.geb_spec col W); [|lia].
    destruct (Z.ltb_spec row 0); [lia|].
    destruct (Z.geb_spec row H); [lia|].
    rewrite to_unsigned_sub_l, to_int_to_unsigned.
    rewrite (to_int_small (col - W))
      by (unfold is_int; rewrite min_signed_eq, max_signed_eq; lia).
    rewrite to_unsigned_mul_l, to_unsigned_add_l, to_unsigned_add_r.
    apply to_unsigned_small. rewrite modulus_eq. nia. }
  split; [done|]. split; [nia|]. intros ->. nia.
Qed.

Lemma translate_to_1D_two_widths_witness :
  translate_to_1D 7 2 3 3 = 2 * 3 + (7 - 3) ∧
  (2 + 1) * 3 <= translate_to_1D 7 2 3 3 ∧
  (2 = 3 - 1 → 3 * 3 <= translate_to_1D 7 2 3 3).
Proof.
  apply (translate_to_1D_two_widths 7 2 3 3);
    unfold grid_dims, is_int; rewrite ?max_signed_eq, ?min_signed_eq; lia.
Defined.

(** ** [count_live_neighbors]: the neighbourhood *)

Lemma moore_offsets_range d :
  d ∈ moore_offsets →
  -1 <= d.1 <= 1 ∧ -1 <= d.2 <= 1 ∧ (d.1 ≠ 0 ∨ d.2 ≠ 0).
Proof.
  unfold moore_offsets. intros Hd.
  repeat (apply elem_of_cons in Hd as [->|Hd]; [simpl; lia|]).
  by apply elem_of_nil in Hd.
Qed.

Lemma wrap_once_offsets c d1 d2 n :
  3 <= n → 0 <= c < n → -1 <= d1 <= 1 → -1 <= d2 <= 1 →
  wrap_once (c + d1) n = wrap_once (c + d2) n → d1 = d2.
Proof.
  intros Hn Hc Hd1 Hd2. unfold wrap_once.
  destruct (Z.ltb_spec (c + d1) 0); destruct (Z.ltb_spec (c + d2) 0);
    destruct (Z.geb_spec (c + d1) n); destruct (Z.geb_spec (c + d2) n); lia.
Qed.

(** X14: on a grid at least three cells wide and three cells high the
    eight cells that [count_live_neighbors] reads for a cell are eight
    different cells, none of them the cell itself, so the count is the
    number of live cells among the eight neighbours on the torus. *)
Theorem neighbors_distinct x y W H :
  grid_dims W H → 3 <= W → 3 <= H → in_grid x y W H →
  NoDup ((λ d, translate_to_1D (x + d.1) (y + d.2) W H) <$> moore_offsets) ∧
  translate_to_1D x y W H
    ∉ (λ d, translate_to_1D (x + d.1) (y + d.2) W H) <$> moore_offsets.
Proof.
  intros Hd HW HH Hin. split.
  - apply NoDup_fmap_2_strong.
    + intros [dx1 dy1] [dx2 dy2] H1 H2. simpl.
      apply moore_offsets_range in H1 as (? & ? & _).
      apply moore_offsets_range in H2 as (? & ? & _). simpl in *.
      destruct (translate_neighbor x y dx1 dy1 W H Hd Hin) as [-> _]; [lia..|].
      destruct (translate_neighbor x y dx2 dy2 W H Hd Hin) as [-> _]; [lia..|].
      unfold index. intros Heq. destruct Hin as [Hx Hy].
      pose proof (wrap_once_range (x + dx1) W).
      pose proof (wrap_once_range (x + dx2) W).
      pose proof (wrap_once_range (y + dy1) H).
      pose proof (wrap_once_range (y + dy2) H).
      assert (wrap_once (y + dy1) H = wrap_once (y + dy2) H) as Hrow by nia.
      assert (wrap_once (x + dx1) W = wrap_once (x + dx2) W) as Hcol by nia.
      apply wrap_once_offsets in Hrow; [|lia..].
      apply wrap_once_offsets in Hcol; [|lia..]. by subst.
    + unfold moore_offsets. apply NoDup_ListNoDup.
      repeat (constructor; [simpl; intuition congruence|]). constructor.
  - intros Hel. apply list_elem_of_fmap in Hel as ([dx dy] & Heq & Hd').
    apply moore_offsets_range in Hd' as (? & ? & ?). simpl in *.
    destruct (translate_neighbor x y dx dy W H Hd Hin) as [Htr _]; [lia..|].
    destruct (translate_cell x y W H Hd Hin) as [Htc _].
    rewrite Htr, Htc in Heq. symmetry in Heq.
    by apply (neighbor_index_ne x y dx dy W H) in Heq; try lia.
Qed.

Lemma neighbors_distinct_witness :
  NoDup ((λ d, translate_to_1D (0 + d.1) (0 + d.2) 3 3) <$> moore_offsets) ∧
  translate_to_1D 0 0 3 3
    ∉ (λ d, translate_to_1D (0 + d.1) (0 + d.2) 3 3) <$> moore_offsets.
Proof.
  apply (neighbors_distinct 0 0 3 3);
    unfold grid_dims, in_grid; rewrite ?max_signed_eq; lia.
Defined.

(** ** [initialize_world]: configurations that are read *)

Lemma pair_index_in_reach W H p :
  grid_dims W H → pair_in_reach W H p →
  pair_index W H p = index p.1 p.2 W H ∧ 0 <= index p.1 p.2 W H < W * H.
Proof.
  intros Hd (Hc & Hci & Hr & Hri). unfold pair_index.
  destruct (grid_dims_bounds W H Hd) as (HW & HH & HWH & -> & ->).
  rewrite max_signed_eq in *.
  rewrite !to_int_to_unsigned.
  rewrite !to_int_small by (unfold is_int; rewrite min_signed_eq, max_signed_eq; lia).
  split.
  - apply translate_to_1D_index; rewrite ?max_signed_eq; try lia;
      unfold is_int; rewrite min_signed_eq, max_signed_eq; lia.
  - apply index_range; lia.
Qed.

Lemma take_pairs_tokens ps rest :
  take_pairs (length ps) (pair_tokens ps ++ rest) = Some ps.
Proof.
  induction ps as [|[col row] ps IH]; [done|].
  simpl. by rewrite IH.
Qed.

Lemma read_pairs_returns n :
  ∀ toks W H w ps,
    take_pairs n toks = Some ps →
    Forall (λ p, pair_index W H p < Z.of_nat (length w)) ps →
    ∃ w', read_pairs n toks W H (Some w) = InitWorld W H w'.
Proof.
  induction n as [|n IH]; intros toks W H w ps Hps Hin; simpl in *.
  { eauto. }
  revert Hps.
  destruct (scan_number toks) as [[col toks1]|]; [|done]. simpl.
  destruct (scan_number toks1) as [[row toks2]|]; [|done]. simpl.
  destruct (take_pairs n toks2) as [ps'|] eqn:Hps'; [|done]. simpl.
  intros [= <-]. apply Forall_cons in Hin as [Hk Hin].
  unfold pair_index in Hk. simpl in Hk.
  rewrite bool_decide_eq_true_2 by done.
  apply (IH toks2 W H _ ps'); [done|]. by rewrite length_insert.
Qed.

(** The grid that a configuration with pairs in reach gives, by
    indices. *)
Lemma initialize_world_cells rows cols ps rest :
  grid_dims cols rows → Z.of_nat (length ps) < modulus →
  Forall (pair_in_reach cols rows) ps →
  ∃ w,
    initialize_world (Some (config_tokens rows cols ps rest))
      = InitWorld cols rows w ∧
    Z.of_nat (length w) = cols * rows ∧
    ∀ i, (w !! i = Some 1 ↔
            ∃ p, p ∈ ps ∧ Z.to_nat (index p.1 p.2 cols rows) = i) ∧
         ((i < length w)%nat → w !! i ≠ Some 1 → w !! i = Some 0).
Proof.
  intros Hd Hn Hreach.
  destruct (grid_dims_bounds cols rows Hd) as (HW & HH & HWH & _ & _).
  pose proof Hd as (_ & _ & Hsize).
  assert (to_int cols = cols ∧ to_int rows = rows) as [Ec Er].
  { split; apply to_int_small; unfold is_int; rewrite min_signed_eq; lia. }
  unfold config_tokens, initialize_world. simpl. rewrite Ec, Er.
  rewrite bool_decide_eq_true_2 by (apply is_int_intro; lia).
  destruct (Z.ltb_spec (cols * rows) 0); [lia|].
  rewrite to_unsigned_small by lia. rewrite Nat2Z.id.
  set (w0 := replicate (Z.to_nat (cols * rows)) 0).
  assert (Z.of_nat (length w0) = cols * rows) as Hl0.
  { unfold w0. rewrite length_replicate. lia. }
  destruct (read_pairs_returns (length ps) (pair_tokens ps ++ rest)
              cols rows w0 ps) as [w Hw].
  { apply take_pairs_tokens. }
  { eapply Forall_impl; [exact Hreach|]. intros p Hp. simpl.
    destruct (pair_index_in_reach cols rows p Hd Hp) as [-> ?]. lia. }
  exists w. split; [done|].
  apply read_pairs_world in Hw as (_ & _ & Hlen & ps' & Hps' & Hcells).
  rewrite take_pairs_tokens in Hps'. injection Hps' as <-.
  split; [lia|]. intros i. destruct (Hcells i) as [Hone Hother]. split.
  - rewrite Hone. split.
    + intros [Hinit|(p & Hp & Hpi)].
      * apply lookup_replicate in Hinit as [? _]. done.
      * exists p. split; [done|].
        rewrite Forall_forall in Hreach.
        destruct (pair_index_in_reach cols rows p Hd (Hreach p Hp)) as [<- _].
        done.
    + intros (p & Hp & Hpi). right. exists p. split; [done|].
      rewrite Forall_forall in Hreach.
      destruct (pair_index_in_reach cols rows p Hd (Hreach p Hp)) as [-> _].
      done.
  - intros Hi Hne. rewrite Hother by done.
    apply lookup_replicate. split; [done|].
    rewrite Hlen in Hi. unfold w0 in Hi. by rewrite length_replicate in Hi.
Qed.

(** X15: a configuration with positive dimensions whose product is an
    [int], and with pairs that are [int] values within one width and one
    height of the grid, before it or beyond it (a column from - W to
    2 W - 1 and a row from - H to 2 H - 1), is read: [initialize_world] returns a grid of
    W * H cells in which the cell (x, y) is alive exactly when a pair
    names it after one wrap of its column and of its row, and holds 0
    otherwise; what follows the announced pairs in the file is not
    looked at. *)
Theorem initialize_world_in_reach rows cols ps rest :
  grid_dims cols rows → Z.of_nat (length ps) < modulus →
  Forall (pair_in_reach cols rows) ps →
  ∃ w,
    initialize_world (Some (config_tokens rows cols ps rest))
      = InitWorld cols rows w ∧
    initialize_world (Some (config_tokens rows cols ps []))
      = InitWorld cols rows w ∧
    Z.of_nat (length w) = cols * rows ∧
    ∀ x y, in_grid x y cols rows →
      (w !! Z.to_nat (translate_to_1D x y cols rows) = Some ALIVE ↔
         ∃ p, p ∈ ps ∧ wrap_once p.1 cols = x ∧ wrap_once p.2 rows = y) ∧
      (w !! Z.to_nat (translate_to_1D x y cols rows) ≠ Some ALIVE →
       w !! Z.to_nat (translate_to_1D x y cols rows) = Some DEAD).
Proof.
  intros Hd Hn Hreach.
  destruct (initialize_world_cells rows cols ps rest Hd Hn Hreach)
    as (w & Hw & Hlen & Hcells).
  destruct (initialize_world_cells rows cols ps [] Hd Hn Hreach)
    as (w' & Hw' & Hlen' & Hcells').
  assert (w' = w) as ->.
  { apply list_eq. intros i.
    destruct (decide (i < length w)%nat) as [Hi|Hi].
    - destruct (Hcells i) as [Hone Hzero], (Hcells' i) as [Hone' Hzero'].
      destruct (decide (w !! i = Some 1)) as [H1|H1].
      + rewrite H1. apply Hone'. by apply Hone.
      + rewrite (Hzero Hi H1). apply Hzero'; [lia|].
        intros H1'. apply H1, Hone. by apply Hone'.
    - rewrite !lookup_ge_None_2; (done || lia). }
  exists w. split; [done|]. split; [done|]. split; [done|].
  intros x y Hin. destruct (translate_cell x y cols rows Hd Hin) as [-> Hi].
  destruct (Hcells (Z.to_nat (index x y cols rows))) as [Hone Hzero].
  pose proof Hd as (HW & HH & _). unfold ALIVE, DEAD. split.
  - rewrite Hone. rewrite Forall_forall in Hreach. split.
    + intros (p & Hp & Hpi). exists p. split; [done|].
      destruct (Hreach p Hp) as (? & _ & ? & _).
      assert (index p.1 p.2 cols rows = index x y cols rows) as Heq.
      { pose proof (index_range p.1 p.2 cols rows). lia. }
      unfold index at 1 in Heq.
      rewrite (index_in_range x y) in Heq by apply Hin.
      pose proof (wrap_once_range p.1 cols). pose proof (wrap_once_range p.2 rows).
      destruct Hin. assert (wrap_once p.2 rows = y) by nia. split; nia.
    + intros (p & Hp & Hx & Hy). exists p. split; [done|]. f_equal.
      unfold index at 1. rewrite Hx, Hy.
      destruct Hin. by rewrite index_in_range.
  - intros Hne. apply Hzero; [lia|done].
Qed.

Lemma initialize_world_in_reach_witness :
  ∃ w,
    initialize_world (Some (config_tokens 3 3 [(1, 1); (4, 0); (-1, -3)] [Junk]))
      = InitWorld 3 3 w ∧
    initialize_world (Some (config_tokens 3 3 [(1, 1); (4, 0); (-1, -3)] []))
      = InitWorld 3 3 w ∧
    Z.of_nat (length w) = 3 * 3 ∧
    ∀ x y, in_grid x y 3 3 →
      (w !! Z.to_nat (translate_to_1D x y 3 3) = Some ALIVE ↔
         ∃ p, p ∈ [(1, 1); (4, 0); (-1, -3)] ∧ wrap_once p.1 3 = x ∧ wrap_once p.2 3 = y) ∧
      (w !! Z.to_nat (translate_to_1D x y 3 3) ≠ Some ALIVE →
       w !! Z.to_nat (translate_to_1D x y 3 3) = Some DEAD).
Proof.
  apply (initialize_world_in_reach 3 3 [(1, 1); (4, 0); (-1, -3)] [Junk]);
    [ unfold grid_dims; rewrite max_signed_eq; lia
    | rewrite modulus_eq; simpl; lia
    | repeat (apply Forall_cons_2;
              [unfold pair_in_reach; rewrite max_signed_eq; simpl; lia|]);
      apply Forall_nil_2 ].
Defined.

(** X16: the grid read depends on the set of the pairs only: two
    configurations of the same dimensions whose pairs, all in reach, are
    the same up to order and repetition give the same grid. *)
Theorem initialize_world_pair_set rows cols ps1 ps2 rest1 rest2 :
  grid_dims cols rows →
  Z.of_nat (length ps1) < modulus → Z.of_nat (length ps2) < modulus →
  Forall (pair_in_reach cols rows) ps1 → Forall (pair_in_reach cols rows) ps2 →
  (∀ p, p ∈ ps1 ↔ p ∈ ps2) →
  ∃ w,
    initialize_world (Some (config_tokens rows cols ps1 rest1))
      = InitWorld cols rows w ∧
    initialize_world (Some (config_tokens rows cols ps2 rest2))
      = InitWorld cols rows w.
Proof.
  intros Hd Hn1 Hn2 Hr1 Hr2 Hsame.
  destruct (initialize_world_cells rows cols ps1 rest1 Hd Hn1 Hr1)
    as (w1 & Hw1 & Hlen1 & Hcells1).
  destruct (initialize_world_cells rows cols ps2 rest2 Hd Hn2 Hr2)
    as (w2 & Hw2 & Hlen2 & Hcells2).
  assert (w2 = w1) as ->; [|by exists w1].
  apply list_eq. intros i.
  destruct (decide (i < length w1)%nat) as [Hi|Hi].
  - destruct (Hcells1 i) as [Hone1 Hzero1], (Hcells2 i) as [Hone2 Hzero2].
    assert (w1 !! i = Some 1 ↔ w2 !! i = Some 1) as Hiff.
    { rewrite Hone1, Hone2. split; intros (p & Hp & Hpi); exists p;
        (split; [by apply Hsame|done]). }
    destruct (decide (w1 !! i = Some 1)) as [H1|H1].
    + rewrite H1. by apply Hiff.
    + rewrite (Hzero1 Hi H1). apply Hzero2; [lia|]. by rewrite <- Hiff.
  - rewrite !lookup_ge_None_2; (done || lia).
Qed.

Lemma initialize_world_pair_set_witness :
  ∃ w,
    initialize_world (Some (config_tokens 3 3 [(1, 1); (4, 0)] []))
      = InitWorld 3 3 w ∧
    initialize_world (Some (config_tokens 3 3 [(4, 0); (1, 1); (4, 0)] [Junk]))
      = InitWorld 3 3 w.
Proof.
  apply (initialize_world_pair_set 3 3 [(1, 1); (4, 0)] [(4, 0); (1, 1); (4, 0)]
           [] [Junk]);
    [ unfold grid_dims; rewrite max_signed_eq; lia
    | rewrite modulus_eq; simpl; lia
    | rewrite modulus_eq; simpl; lia
    | repeat (apply Forall_cons_2;
              [unfold pair_in_reach; rewrite max_signed_eq; simpl; lia|]);
      apply Forall_nil_2
    | repeat (apply Forall_cons_2;
              [unfold pair_in_reach; rewrite max_signed_eq; simpl; lia|]);
      apply Forall_nil_2
    | intros p; rewrite !elem_of_cons; tauto ].
Defined.

(** ** [main]: the options and the run *)

Lemma handle_option_None o ch optarg :
  handle_option o ch optarg = None ↔ bad_option (ch, optarg).
Proof.
  unfold handle_option, bad_option.
  destruct (Ascii.eqb_spec ch "c") as [->|Hc].
  { split; [done|]. intros [(? & _)|(? & _)]; done. }
  destruct (Ascii.eqb_spec ch "t") as [->|Ht].
  { destruct (sscanf_d optarg); simpl; split; try done.
    - intros [(_ & ? & _)|(_ & ?)]; done.
    - intros _. by right. }
  destruct (Ascii.eqb_spec ch "d") as [->|Hd].
  { destruct (sscanf_d optarg); simpl; split; try done.
    - intros [(_ & _ & ? & _)|(_ & ?)]; done.
    - intros _. by right. }
  destruct (Ascii.eqb_spec ch "p") as [->|Hp].
  { destruct (sscanf_d optarg); simpl; split; try done.
    - intros [(_ & _ & _ & ?)|(_ & ?)]; done.
    - intros _. by right. }
  split; [|done]. intros _. by left.
Qed.

Lemma for_each_options_None opts o :
  for_each opts (λ '(ch, optarg) o, handle_option o ch optarg) o = None ↔
  Exists bad_option opts.
Proof.
  revert o. induction opts as [|[ch optarg] opts IH]; intros o; simpl.
  { split; [done|]. intros Hex. by apply Exists_nil in Hex. }
  rewrite Exists_cons.
  destruct (handle_option o ch optarg) as [o1|] eqn:Hh; simpl.
  - rewrite IH. split; [by right|]. intros [Hbad|?]; [|done].
    apply (handle_option_None o) in Hbad. congruence.
  - split; [|done]. intros _. left. by apply (handle_option_None o).
Qed.

Lemma last_arg_snoc ch opts c a :
  last_arg ch (opts ++ [(c, a)]) =
  if Ascii.eqb c ch then Some a else last_arg ch opts.
Proof. unfold last_arg. by rewrite foldl_app. Qed.

(** What the options leave in the variables of [main], from any initial
    values. *)
Lemma for_each_options_last opts :
  ∀ o0 o,
    for_each opts (λ '(ch, optarg) o, handle_option o ch optarg) o0 = Some o →
    opt_config_filename o
      = from_option Some (opt_config_filename o0) (last_arg "c" opts) ∧
    opt_num_turns o
      = default (opt_num_turns o0) (last_arg "t" opts ≫= sscanf_d) ∧
    opt_delay o
      = default (opt_delay o0) (last_arg "d" opts ≫= sscanf_d) ∧
    opt_num_threads o
      = default (opt_num_threads o0) (last_arg "p" opts ≫= sscanf_d).
Proof.
  induction opts as [|[ch optarg] opts IH] using rev_ind; intros o0 o Hrun.
  { by injection Hrun as <-. }
  rewrite for_each_app in Hrun.
  destruct (for_each opts _ o0) as [o1|] eqn:Hrun1; [|done].
  destruct (IH o0 o1 Hrun1) as (Hc & Ht & Hd & Hp). simpl in Hrun.
  destruct (handle_option o1 ch optarg) as [o2|] eqn:Hh; [|done].
  simpl in Hrun. injection Hrun as ->. rewrite !last_arg_snoc.
  unfold handle_option in Hh.
  destruct (Ascii.eqb_spec ch "c") as [->|Hnc].
  { injection Hh as <-. simpl. by rewrite Ht, Hd, Hp. }
  destruct (Ascii.eqb_spec ch "t") as [->|Hnt].
  { destruct (sscanf_d optarg) as [v|] eqn:Hv; [|done]. injection Hh as <-.
    simpl. by rewrite Hv, Hc, Hd, Hp. }
  destruct (Ascii.eqb_spec ch "d") as [->|Hnd].
  { destruct (sscanf_d optarg) as [v|] eqn:Hv; [|done]. injection Hh as <-.
    simpl. by rewrite Hv, Hc, Ht, Hp. }
  destruct (Ascii.eqb_spec ch "p") as [->|Hnp]; [|done].
  destruct (sscanf_d optarg) as [v|] eqn:Hv; [|done]. injection Hh as <-.
  simpl. by rewrite Hv, Hc, Ht, Hd.
Qed.

(** X17: when the options are accepted each setting is that of the last
    option with its letter, and the default when there is none: the file
    name is the argument of the last -c, the turns, the delay and the
    number of threads are the numbers read from the last -t, -d and -p,
    or 20, 100 and 2; [p] is 1. *)
Theorem parse_options_last opts o :
  parse_options opts = Some o →
  opt_config_filename o = last_arg "c" opts ∧
  opt_num_turns o = default 20 (last_arg "t" opts ≫= sscanf_d) ∧
  opt_delay o = default 100 (last_arg "d" opts ≫= sscanf_d) ∧
  opt_num_threads o = default 2 (last_arg "p" opts ≫= sscanf_d) ∧
  opt_p o = 1.
Proof.
  intros Hparse. unfold parse_options in Hparse.
  pose proof (for_each_options_p _ _ _ Hparse) as Hp.
  apply for_each_options_last in Hparse as (Hc & Ht & Hd & Hn). simpl in *.
  repeat split; try done. rewrite Hc. by destruct (last_arg "c" opts).
Qed.

Lemma parse_options_last_witness :
  opt_config_filename
    {| opt_config_filename := Some "b"%string; opt_delay := 100;
       opt_num_turns := 7; opt_p := 1; opt_num_threads := 2 |}
    = last_arg "c" [("t"%char, "5"%string); ("c"%char, "a"%string);
                    ("t"%char, "7"%string); ("c"%char, "b"%string)] ∧
  opt_num_turns
    {| opt_config_filename := Some "b"%string; opt_delay := 100;
       opt_num_turns := 7; opt_p := 1; opt_num_threads := 2 |}
    = default 20 (last_arg "t" [("t"%char, "5"%string); ("c"%char, "a"%string);
                                ("t"%char, "7"%string); ("c"%char, "b"%string)]
                  ≫= sscanf_d) ∧
  opt_delay
    {| opt_config_filename := Some "b"%string; opt_delay := 100;
       opt_num_turns := 7; opt_p := 1; opt_num_threads := 2 |}
    = default 100 (last_arg "d" [("t"%char, "5"%string); ("c"%char, "a"%string);
                                 ("t"%char, "7"%string); ("c"%char, "b"%string)]
                   ≫= sscanf_d) ∧
  opt_num_threads
    {| opt_config_filename := Some "b"%string; opt_delay := 100;
       opt_num_turns := 7; opt_p := 1; opt_num_threads := 2 |}
    = default 2 (last_arg "p" [("t"%char, "5"%string); ("c"%char, "a"%string);
                               ("t"%char, "7"%string); ("c"%char, "b"%string)]
                 ≫= sscanf_d) ∧
  opt_p
    {| opt_config_filename := Some "b"%string; opt_delay := 100;
       opt_num_turns := 7; opt_p := 1; opt_num_threads := 2 |} = 1.
Proof.
  apply (parse_options_last
           [("t"%char, "5"%string); ("c"%char, "a"%string);
            ("t"%char, "7"%string); ("c"%char, "b"%string)]).
  reflexivity.
Defined.

(** X18: [main] ends in [usage] exactly when an option has a letter
    other than c, t, d and p, or a -t, -d or -p has an argument that is
    not read as a number, or no -c option is given. *)
Theorem main_usage files opts junk :
  main files opts junk = MainUsage ↔
  Exists bad_option opts ∨ last_arg "c" opts = None.
Proof.
  unfold main. destruct (parse_options opts) as [o|] eqn:Hparse.
  - assert (¬ Exists bad_option opts) as Hok.
    { intros Hbad. apply for_each_options_None with (o := default_options) in Hbad.
      unfold parse_options in Hparse. congruence. }
    apply for_each_options_last in Hparse as (Hc & _). simpl in Hc.
    rewrite Hc. destruct (last_arg "c" opts) as [f|]; simpl.
    + split; [|intros [?|?]; done].
      destruct (initialize_world (files f)) as [| |W H w]; try done.
      destruct (main_run o W H w junk) as [m|]; [|done].
      by destruct (print_world m main_world W H (opt_num_turns o)).
    + split; [by right|done].
  - split; [|done]. intros _. left.
    by apply for_each_options_None with (o := default_options).
Qed.

(** ** [print_world]: the screen *)

Lemma digits_of_length_le fuel :
  ∀ n acc (k : nat),
    0 <= n < 10 ^ Z.of_nat k → (1 <= k <= fuel)%nat →
    (String.length (digits_of fuel n acc) <= k + String.length acc)%nat.
Proof.
  induction fuel as [|fuel IH]; intros n acc k Hn Hk; [lia|].
  simpl. destruct (Z.ltb_spec n 10) as [Hlt|Hge]; [simpl; lia|].
  destruct k as [|[|k]]; [lia|simpl in Hn; lia|].
  etrans; [apply (IH _ _ (S k))|simpl; lia]; [|lia].
  rewrite (Nat2Z.inj_succ (S k)), Z.pow_succ_r in Hn by lia.
  split; [apply Z.div_pos; lia|]. apply Z.div_lt_upper_bound; lia.
Qed.

Lemma digits_of_length_acc fuel :
  ∀ n acc, (String.length acc <= String.length (digits_of fuel n acc))%nat.
Proof.
  induction fuel as [|fuel IH]; intros n acc; [done|].
  simpl. destruct (n <? 10); [simpl; lia|].
  etrans; [|apply IH]. simpl. lia.
Qed.

Lemma digits_of_length_ge fuel :
  ∀ n acc (k : nat),
    10 ^ Z.of_nat k <= n → (k < fuel)%nat →
    (k + 1 + String.length acc <= String.length (digits_of fuel n acc))%nat.
Proof.
  induction fuel as [|fuel IH]; intros n acc k Hn Hk; [lia|].
  simpl. destruct k as [|k].
  { destruct (n <? 10); [simpl; lia|].
    etrans; [|apply digits_of_length_acc]. simpl. lia. }
  rewrite Nat2Z.inj_succ, Z.pow_succ_r in Hn by lia.
  assert (0 < 10 ^ Z.of_nat k) by (apply Z.pow_pos_nonneg; lia).
  destruct (Z.ltb_spec n 10); [lia|].
  etrans; [|apply (IH _ _ k)]; [simpl; lia| |lia].
  apply Z.div_le_lower_bound; lia.
Qed.

Lemma decimal_length_fits turn :
  is_int turn →
  (String.length (decimal turn) <= 8)%nat ↔ -9999999 <= turn <= 99999999.
Proof.
  intros Hint. unfold is_int in Hint.
  rewrite min_signed_eq, max_signed_eq in Hint. unfold decimal.
  destruct (Z.ltb_spec turn 0) as [Hneg|Hpos]; simpl String.length.
  - split.
    + intros Hlen. destruct (Z.le_gt_cases 10000000 (- turn)) as [Hbig|?]; [|lia].
      pose proof (digits_of_length_ge 10 (- turn) EmptyString 7 Hbig) as Hge.
      simpl in Hge. lia.
    + intros Hr.
      pose proof (digits_of_length_le 10 (- turn) EmptyString 7) as Hle.
      simpl in Hle. lia.
  - split.
    + intros Hlen. destruct (Z.le_gt_cases 100000000 turn) as [Hbig|?]; [|lia].
      pose proof (digits_of_length_ge 10 turn EmptyString 8 Hbig) as Hge.
      simpl in Hge. lia.
    + intros Hr.
      pose proof (digits_of_length_le 10 turn EmptyString 8) as Hle.
      simpl in Hle. lia.
Qed.

Lemma time_step_length s :
  String.length ("Time Step: " ++ s)%string = (11 + String.length s)%nat.
Proof. reflexivity. Qed.

Lemma sprintf_turn_fits turn :
  is_int turn →
  (sprintf_turn turn = None ↔ turn < -9999999 ∨ 99999999 < turn) ∧
  (-9999999 <= turn <= 99999999 →
   sprintf_turn turn = Some ("Time Step: " ++ decimal turn)%string).
Proof.
  intros Hint. pose proof (decimal_length_fits turn Hint) as Hfit.
  unfold sprintf_turn. rewrite time_step_length.
  case_bool_decide as Hlen; split; try done.
  - split; [done|]. intros Hout. exfalso.
    assert (String.length (decimal turn) <= 8)%nat as Hle by lia.
    apply Hfit in Hle. lia.
  - split; [|done]. intros _.
    destruct (Z.lt_ge_cases turn (-9999999)) as [?|?]; [by left|].
    destruct (Z.lt_ge_cases 99999999 turn) as [?|?]; [by right|].
    exfalso. apply Hlen. assert (String.length (decimal turn) <= 8)%nat; [|lia].
    apply Hfit. lia.
  - intros Hr. exfalso. apply Hlen.
    assert (String.length (decimal turn) <= 8)%nat; [|lia]. by apply Hfit.
Qed.

(** The loops of [print_world] over the cells of a grid. *)
Lemma print_world_cells m wld W H w cells out :
  grid_dims W H → heap m !! wld = Some w → Z.of_nat (length w) = W * H →
  Forall (λ '(y, x), in_grid x y W H) cells →
  for_each cells
    (λ '(row, col) out,
       v ← load m wld (translate_to_1D col row (to_unsigned W) (to_unsigned H));
       Some (out ++ [Mvaddch row col (if v =? 1 then "@"%char else "."%char)]))
    out
  = Some (out ++ ((λ '(y, x), Mvaddch y x (cell_char w x y W H)) <$> cells)).
Proof.
  intros Hd Hw Hlw. revert out.
  destruct (grid_dims_bounds W H Hd) as (_ & _ & _ & -> & ->).
  induction cells as [|[y x] cells IH]; intros out Hin.
  { simpl. by rewrite app_nil_r. }
  apply Forall_cons in Hin as [Hc Hin]. simpl.
  destruct (translate_cell x y W H Hd Hc) as [-> Hi].
  rewrite (load_heap m wld w) by (done || lia).
  destruct (lookup_in_bounds w (index x y W H)) as [v Hv]; [lia|].
  rewrite Hv. simpl. rewrite IH by done. rewrite <- app_assoc. simpl.
  unfold cell_char, alive_at, alive, ALIVE. by rewrite Hv.
Qed.

Lemma print_world_grid m wld W H w turn :
  is_grid m wld W H w →
  print_world m wld W H turn =
    turn_str ← sprintf_turn turn;
    Some (Clear ::
          ((λ '(y, x), Mvaddch y x (cell_char w x y W H))
             <$> band_cells W 0 (H - 1)) ++
          [Mvaddstr (H + 1) 0 turn_str; Refresh]).
Proof.
  intros (Hd & Hw & Hlw). unfold print_world.
  rewrite (for_each_nested (seqZ 0 H) (λ _, seqZ 0 W)
             (λ row col out,
                v ← load m wld
                      (translate_to_1D col row (to_unsigned W) (to_unsigned H));
                Some (out ++ [Mvaddch row col
                                (if v =? 1 then "@"%char else "."%char)]))).
  assert ((seqZ 0 H ≫= λ a, (λ b, (a, b)) <$> seqZ 0 W) = band_cells W 0 (H - 1))
    as ->.
  { unfold band_cells. by replace (H - 1 - 0 + 1) with H by lia. }
  rewrite (print_world_cells m wld W H w) by
    (done || (destruct Hd as (? & ? & _); apply band_cells_in_grid; lia)).
  done.
Qed.

(** X20: on a grid and for a turn number from -9999999 to 99999999
    [print_world] reads inside the array and, after clearing the screen,
    puts one character for each cell, at screen row y and column x for
    the cell (x, y): an at sign when the cell holds 1 and a dot
    otherwise; it then writes the text "Time Step: " with the turn in
    decimal at row H + 1, column 0, and refreshes. *)
Theorem print_world_trace m wld W H w turn :
  is_grid m wld W H w → -9999999 <= turn <= 99999999 →
  ∃ cells,
    print_world m wld W H turn =
      Some (Clear :: cells ++
            [Mvaddstr (H + 1) 0 ("Time Step: " ++ decimal turn)%string;
             Refresh]) ∧
    Z.of_nat (length cells) = W * H ∧
    ∀ call, call ∈ cells ↔
              ∃ x y, in_grid x y W H ∧
                     call = Mvaddch y x (if alive_at w (translate_to_1D x y W H)
                                         then "@"%char else "."%char).
Proof.
  intros Hg Hturn. pose proof Hg as (Hd & _ & Hlw).
  pose proof Hd as (HW & HH & _).
  assert (is_int turn) as Hint.
  { unfold is_int. rewrite min_signed_eq, max_signed_eq. lia. }
  destruct (sprintf_turn_fits turn Hint) as [_ Hstr].
  rewrite (print_world_grid m wld W H w) by done. rewrite Hstr by done.
  eexists. split; [done|]. split.
  - rewrite length_fmap. unfold band_cells.
    replace (H - 1 - 0 + 1) with H by lia.
    assert (∀ l : list Z,
              length (l ≫= λ y, (λ x, (y, x)) <$> seqZ 0 W)
              = (length l * Z.to_nat W)%nat) as Hlen.
    { induction l as [|y l IH]; [done|].
      change ((y :: l) ≫= ?g) with (g y ++ (l ≫= g)).
      rewrite length_app, length_fmap, length_seqZ, IH. simpl. lia. }
    rewrite Hlen, length_seqZ. nia.
  - intros call. rewrite list_elem_of_fmap. split.
    + intros ([y x] & -> & Hel). apply elem_of_band_cells in Hel.
      assert (in_grid x y W H) as Hin by (unfold in_grid; lia).
      exists x, y. split; [done|].
      destruct (translate_cell x y W H Hd Hin) as [-> _]. done.
    + intros (x & y & Hin & ->). exists (y, x).
      destruct (translate_cell x y W H Hd Hin) as [-> _]. split; [done|].
      apply elem_of_band_cells. destruct Hin. lia.
Qed.

Lemma print_world_trace_witness :
  ∃ cells,
    print_world blinker_machine 1 5 5 3 =
      Some (Clear :: cells ++
            [Mvaddstr (5 + 1) 0 ("Time Step: " ++ decimal 3)%string; Refresh]) ∧
    Z.of_nat (length cells) = 5 * 5 ∧
    ∀ call, call ∈ cells ↔
              ∃ x y, in_grid x y 5 5 ∧
                     call = Mvaddch y x
                              (if alive_at blinker (translate_to_1D x y 5 5)
                               then "@"%char else "."%char).
Proof.
  apply (print_world_trace blinker_machine 1 5 5 blinker 3);
    [ split; [unfold grid_dims; rewrite max_signed_eq; lia | split; reflexivity]
    | lia ].
Defined.

(** X21: the 20 bytes of [turn_str] hold the text for the turns from
    -9999999 to 99999999 and for no other: on a grid [print_world] is
    undefined, by a write of [sprintf] past the end of [turn_str],
    exactly when the [int] turn is above 99999999 or below -9999999. *)
Theorem print_world_turn_bound m wld W H w turn :
  is_grid m wld W H w → is_int turn →
  (print_world m wld W H turn = None ↔ turn < -9999999 ∨ 99999999 < turn).
Proof.
  intros Hg Hint. rewrite (print_world_grid m wld W H w) by done.
  destruct (sprintf_turn_fits turn Hint) as [Hnone _]. rewrite <- Hnone.
  by destruct (sprintf_turn turn).
Qed.

Lemma print_world_turn_bound_witness :
  print_world blinker_machine 1 5 5 100000000 = None ↔
  100000000 < -9999999 ∨ 99999999 < 100000000.
Proof.
  apply (print_world_turn_bound blinker_machine 1 5 5 blinker 100000000);
    [ split; [unfold grid_dims; rewrite max_signed_eq; lia | split; reflexivity]
    | unfold is_int; rewrite min_signed_eq, max_signed_eq; lia ].
Defined.

(** ** [main]: from the command line to the last frame *)

(** X19: from the command line to the end of [main].  When the options
    are accepted and name a file with a configuration of positive
    dimensions and pairs in reach, the number of threads is at least 1,
    the number of turns is from -9999999 to 99999999, so that its line
    fits on every frame, and 1000 times the delay, which the thread with
    id 0 computes for its sleep, is an [int], then [initialize_world]
    returns the grid, the call of [run_threads] returns and leaves in
    the world the grid that was read, [num_turns] generations on, in a
    heap with no other block, and [main] returns: its last frame shows
    that grid, cell by cell and row after row, over the line of the
    turn, and it has freed the world, which leaves the heap empty. *)
Theorem main_runs files opts o f rows cols ps rest junk :
  parse_options opts = Some o → opt_config_filename o = Some f →
  files f = Some (config_tokens rows cols ps rest) →
  grid_dims cols rows → Z.of_nat (length ps) < modulus →
  Forall (pair_in_reach cols rows) ps →
  1 <= opt_num_threads o <= max_signed →
  -9999999 <= opt_num_turns o <= 99999999 →
  is_int (1000 * opt_delay o) →
  ∃ w0 m,
    initialize_world (files f) = InitWorld cols rows w0 ∧
    main_run o cols rows w0 junk = Some m ∧
    heap m = {[main_world :=
                 generations (Z.to_nat (opt_num_turns o)) w0 cols rows]} ∧
    main files opts junk =
      MainDone (free m main_world)
        (Clear ::
         ((λ '(y, x),
             Mvaddch y x
               (cell_char (generations (Z.to_nat (opt_num_turns o)) w0 cols rows)
                  x y cols rows))
            <$> band_cells cols 0 (rows - 1)) ++
         [Mvaddstr (rows + 1) 0
            ("Time Step: " ++ decimal (opt_num_turns o))%string;
          Refresh]) ∧
    heap (free m main_world) = ∅.
Proof.
  intros Hparse Hf Hfile Hd Hn Hreach HT Hturns _.
  destruct (initialize_world_cells rows cols ps rest Hd Hn Hreach)
    as (w0 & Hinit & Hlen & _).
  pose proof (grid_rows_int cols rows Hd) as HH.
  destruct (run_threads_grid (Machine {[main_world := w0]} [])
              (opt_num_threads o) (opt_num_turns o) main_world cols rows w0 junk)
    as (m & Hrun & Hheap).
  { split; [done|]. split; [|done]. simpl. by rewrite lookup_singleton_eq. }
  { lia. }
  { apply row_bands_nonempty; lia. }
  { apply row_bands_covers; lia. }
  simpl in Hheap. rewrite insert_singleton_eq in Hheap.
  set (wN := generations (Z.to_nat (opt_num_turns o)) w0 cols rows) in *.
  assert (is_grid m main_world cols rows wN) as Hgrid.
  { split; [done|]. split.
    - by rewrite Hheap, lookup_singleton_eq.
    - unfold wN. by rewrite generations_length. }
  assert (is_int (opt_num_turns o)) as Hint.
  { unfold is_int. rewrite min_signed_eq, max_signed_eq. lia. }
  destruct (sprintf_turn_fits (opt_num_turns o) Hint) as [_ Hstr].
  exists w0, m. rewrite Hfile. split; [done|]. split; [done|]. split; [done|].
  split.
  - unfold main. rewrite Hparse, Hf, Hfile, Hinit.
    change (main_run o cols rows w0 junk) with
      (run_threads (Machine {[main_world := w0]} []) (opt_num_threads o)
         (opt_num_turns o) main_world cols rows junk).
    rewrite Hrun. rewrite (print_world_grid m main_world cols rows wN) by done.
    by rewrite Hstr.
  - unfold free. simpl. rewrite Hheap. apply delete_singleton_eq.
Qed.

Lemma main_runs_witness :
  ∃ w0 m,
    initialize_world
      ((λ _, Some (config_tokens 5 5 [(2, 1); (2, 2); (-3, -2)] [])) "w"%string)
      = InitWorld 5 5 w0 ∧
    main_run
      {| opt_config_filename := Some "w"%string; opt_delay := 100;
         opt_num_turns := 2; opt_p := 1; opt_num_threads := 3 |}
      5 5 w0 [] = Some m ∧
    heap m = {[main_world := generations (Z.to_nat 2) w0 5 5]} ∧
    main (λ _, Some (config_tokens 5 5 [(2, 1); (2, 2); (-3, -2)] []))
      [("c"%char, "w"%string); ("t"%char, "2"%string); ("p"%char, "3"%string)]
      [] =
      MainDone (free m main_world)
        (Clear ::
         ((λ '(y, x),
             Mvaddch y x (cell_char (generations (Z.to_nat 2) w0 5 5) x y 5 5))
            <$> band_cells 5 0 (5 - 1)) ++
         [Mvaddstr (5 + 1) 0 ("Time Step: " ++ decimal 2)%string; Refresh]) ∧
    heap (free m main_world) = ∅.
Proof.
  apply (main_runs (λ _, Some (config_tokens 5 5 [(2, 1); (2, 2); (-3, -2)] []))
           [("c"%char, "w"%string); ("t"%char, "2"%string); ("p"%char, "3"%string)]
           {| opt_config_filename := Some "w"%string; opt_delay := 100;
              opt_num_turns := 2; opt_p := 1; opt_num_threads := 3 |}
           "w"%string 5 5 [(2, 1); (2, 2); (-3, -2)] [] []);
    [ reflexivity | reflexivity | reflexivity
    | unfold grid_dims; rewrite max_signed_eq; lia
    | rewrite modulus_eq; simpl; lia
    | repeat (apply Forall_cons_2;
              [unfold pair_in_reach; rewrite max_signed_eq; simpl; lia|]);
      apply Forall_nil_2
    | simpl; rewrite max_signed_eq; lia
    | simpl; lia
    | unfold is_int; rewrite min_signed_eq, max_signed_eq; simpl; lia ].
Defined.
